(** * A shallow embedding of [linkedlist.c]

    The generic singly linked list of [src/linkedlist.c] and
    [include/linkedlist.h], with the facts its specification states about
    [linkedlist_add], [linkedlist_remove], [linkedlist_get],
    [linkedlist_update], [linkedlist_length] and [linkedlist_destroy].

    Modelling choices, all read off the C source:

    - a [void *] to an element is the sequence of bytes it points at
      ([Buf]); a pointer that may be [NULL] is an [option];
    - [struct _ListItem] is the inductive [ListItem]: the [_next] pointer
      of a node is [None] at the end of the chain.  A pointer into the
      chain ([current], [item]) is followed with [walk], and a store
      through such a pointer ([current->_next = ...], a copy into
      [item->_value]) is [store_next] / [store_value] at the depth the
      pointer was found at;
    - an [unsigned int] index is a natural number, and so are the counters
      of the search loops: a counter stops at the index or at the end of
      the chain, whichever comes first (the [int] counter of
      [linkedlist_remove] is compared as an [unsigned int] and stays in
      range on every chain of fewer than [2 ^ 31] nodes).  The [size_t]
      counter of [linkedlist_length] wraps around, as unsigned arithmetic
      does;
    - the hooks are functions on the contents of the buffers they are
      handed; the value a copy hook returns (its destination or [NULL]) is
      kept next to the contents it leaves in the destination;
    - [malloc] and the mutex are the environment: what [malloc],
      [pthread_mutex_init] and [pthread_mutex_lock] answer is an argument
      of the operation that calls them;
    - every call of a hook, of the allocator and of the mutex is recorded,
      in program order, in the [events] of the operation. *)

From Stdlib Require Import ZArith NArith List Bool Lia Ascii.
From stdpp Require Import base option list gmap.
Import ListNotations.

Local Open Scope Z_scope.

(** ** Status codes *)

(** [LINKEDLIST_SUCCESS] of [linkedlist.h]. *)
Definition LINKEDLIST_SUCCESS : Z := 0.

(** The three [errno.h] codes the list returns, with their Linux values. *)
Definition ENOMEM : Z := 12.
Definition EINVAL : Z := 22.
Definition ERANGE : Z := 34.

(** ** Data model *)

Definition byte := Byte.byte.

(** The bytes behind a non-null [void *]. *)
Definition Buf := list byte.

(** [size_t], taken as a 64-bit unsigned integer. *)
Definition size_t := N.
Definition SIZE_WIDTH : N := 64.
Definition size_t_add (a b : size_t) : size_t := ((a + b) mod 2 ^ SIZE_WIDTH)%N.

(** [linkedlist_copyfunction_t]: [copy dest src n] gives whether the hook
    returned a non-null pointer, and the contents of [dest] when it
    returns. *)
Definition linkedlist_copyfunction_t : Type :=
  Buf -> Buf -> size_t -> (bool * Buf)%type.

(** [linkedlist_deallocfunction_t]: [dealloc ptr] gives the contents of the
    buffer at [ptr] when the hook returns (the hook of the tests clears the
    fields of the element it releases). *)
Definition linkedlist_deallocfunction_t := Buf -> Buf.

(** [memcpy(dest, src, n)]: the first [n] bytes of [dest] become the first
    [n] bytes of [src]; it returns [dest]. *)
Definition memcpy : linkedlist_copyfunction_t :=
  fun dest src n => (true, take (N.to_nat n) src ++ drop (N.to_nat n) dest).

(** [struct _ListItem].  A node of the chain always owns a buffer:
    [linkedlist_add] returns [ENOMEM] before it links a node whose buffer
    could not be allocated, so [_value] has the type of a buffer and the
    tests [to_be_freed->_value != NULL] of [linkedlist_remove] and
    [linkedlist_destroy] are always taken. *)
Unset Elimination Schemes.
Inductive ListItem : Type :=
  mkListItem { _value : Buf; _next : option ListItem }.
Set Elimination Schemes.

(** The [LinkedList] struct; [_copy] and [_dealloc] are [None] for [NULL].
    The [_lock] member is an opaque mutex: it has no field here, and what is
    done to it is recorded as events. *)
Record LinkedList : Type := mkLinkedList {
  _head : option ListItem;
  _item_size : size_t;
  _copy : option linkedlist_copyfunction_t;
  _dealloc : option linkedlist_deallocfunction_t
}.

Definition set_head (list : LinkedList) (head : option ListItem) : LinkedList :=
  {| _head := head;
     _item_size := _item_size list;
     _copy := _copy list;
     _dealloc := _dealloc list |}.

(** ** Events *)

Inductive Event : Type :=
| ev_mutex_init (status : Z)                  (* pthread_mutex_init *)
| ev_lock (status : Z)                        (* pthread_mutex_lock *)
| ev_unlock                                   (* pthread_mutex_unlock *)
| ev_mutex_destroy                            (* pthread_mutex_destroy *)
| ev_malloc_item (ok : bool)                  (* malloc(sizeof(ListItem)) *)
| ev_malloc_value (n : size_t) (ok : bool)    (* malloc(list->_item_size) *)
| ev_copy (dest src : Buf) (n : size_t)       (* list->_copy(dest, src, n) *)
| ev_dealloc (value : Buf)                    (* list->_dealloc(value) *)
| ev_free_value (value : Buf)                 (* free(item->_value) *)
| ev_free_item.                               (* free(item) *)

Definition Trace := list Event.

(** What a call leaves behind: its return value, the list struct behind the
    handle, the caller's output buffer and the events of the call. *)
Record Outcome (A : Type) : Type := mkOutcome {
  status : Z;
  list_after : option LinkedList;
  output : A;
  events : Trace
}.
Arguments mkOutcome {A} _ _ _ _.
Arguments status {A} _.
Arguments list_after {A} _.
Arguments output {A} _.
Arguments events {A} _.

(** ** The environment *)

(** [malloc(n)]: [NULL], or a fresh buffer of [n] bytes whose indeterminate
    contents are [junk 0], [junk 1], ... *)
Definition malloc (answer : option (nat -> byte)) (n : size_t) : option Buf :=
  match answer with
  | None => None
  | Some junk => Some (map junk (seq 0 (N.to_nat n)))
  end.

(** What the allocator and the mutex answer during one [linkedlist_add]. *)
Record Env : Type := mkEnv {
  env_malloc_item : bool;                  (* malloc(sizeof(ListItem)) != NULL *)
  env_malloc_value : option (nat -> byte); (* malloc(list->_item_size) *)
  env_lock : Z                             (* pthread_mutex_lock(&list->_lock) *)
}.

(** ** Following and storing through pointers into the chain *)

(** [for (_ = 0; _ < count; _++) { if (item == NULL) break; item = item->_next; }] *)
Fixpoint walk (item : option ListItem) (count : nat) : option ListItem :=
  match count with
  | O => item
  | S count' =>
      match item with
      | None => None
      | Some it => walk (_next it) count'
      end
  end.

(** [current->_next = next] for the node [current] at [depth] below [head]. *)
Fixpoint store_next (head : ListItem) (depth : nat) (next : option ListItem)
  : ListItem :=
  match head with
  | mkListItem v nx =>
      match depth with
      | O => mkListItem v next
      | S depth' =>
          match nx with
          | None => mkListItem v nx
          | Some n => mkListItem v (Some (store_next n depth' next))
          end
      end
  end.

(** The buffer [item->_value] gets the contents [value], for the node [item]
    at [depth] below [head]. *)
Fixpoint store_value (head : ListItem) (depth : nat) (value : Buf) : ListItem :=
  match head with
  | mkListItem v nx =>
      match depth with
      | O => mkListItem value nx
      | S depth' =>
          match nx with
          | None => mkListItem v nx
          | Some n => mkListItem v (Some (store_value n depth' value))
          end
      end
  end.

(** [while (current->_next != NULL) { current = current->_next; }]: the depth
    of the node the loop of [linkedlist_add] stops at. *)
Fixpoint tail_depth (current : ListItem) : nat :=
  match current with
  | mkListItem _ None => O
  | mkListItem _ (Some n) => S (tail_depth n)
  end.

(** ** The operations *)

(** [linkedlist_initialize] *)
Definition linkedlist_initialize (mutex_init : Z) (list : option LinkedList)
    (item_size : size_t) (copy : option linkedlist_copyfunction_t)
    (dealloc : option linkedlist_deallocfunction_t) : Outcome unit :=
  match list with
  | None => mkOutcome EINVAL list tt []
  | Some _ =>
      if (item_size =? 0)%N then mkOutcome EINVAL list tt []
      else if negb (mutex_init =? 0) then
        mkOutcome mutex_init list tt [ev_mutex_init mutex_init]
      else
        mkOutcome LINKEDLIST_SUCCESS
          (Some {| _head := None;
                   _item_size := item_size;
                   _copy := Some (match copy with Some c => c | None => memcpy end);
                   _dealloc := dealloc |})
          tt [ev_mutex_init mutex_init]
  end.

(** [linkedlist_initialized] *)
Definition linkedlist_initialized (list : option LinkedList) : bool :=
  match list with
  | None => false
  | Some l =>
      negb (_item_size l =? 0)%N
      && match _copy l with Some _ => true | None => false end
  end.

(** The calls [list->_dealloc(value); free(value); free(item)] that release a
    node taken out of the chain, [_dealloc] only when it is set. *)
Definition release_item (dealloc : option linkedlist_deallocfunction_t)
    (item : ListItem) : Trace :=
  match dealloc with
  | Some d => [ev_dealloc (_value item); ev_free_value (d (_value item)); ev_free_item]
  | None => [ev_free_value (_value item); ev_free_item]
  end.

(** [linkedlist_add] *)
Definition linkedlist_add (env : Env) (list : option LinkedList)
    (value : option Buf) : Outcome unit :=
  if negb (linkedlist_initialized list) then mkOutcome EINVAL list tt []
  else
    match list, value with
    | None, _ => mkOutcome EINVAL list tt []
    | Some _, None => mkOutcome EINVAL list tt []
    | Some l, Some v =>
        if negb (env_malloc_item env) then
          mkOutcome ENOMEM list tt [ev_malloc_item false]
        else
          match malloc (env_malloc_value env) (_item_size l), _copy l with
          | None, _ =>
              mkOutcome ENOMEM list tt
                [ev_malloc_item true; ev_malloc_value (_item_size l) false;
                 ev_free_item]
          | Some _, None =>
              (* not reached: [linkedlist_initialized] saw [_copy != NULL] *)
              mkOutcome EINVAL list tt []
          | Some fresh, Some copy =>
              let item :=
                mkListItem (copy fresh v (_item_size l)).2 None in
              let before_lock :=
                [ev_malloc_item true; ev_malloc_value (_item_size l) true;
                 ev_copy fresh v (_item_size l); ev_lock (env_lock env)] in
              if negb (env_lock env =? 0) then
                mkOutcome (env_lock env) list tt
                  (before_lock ++ release_item (_dealloc l) item)
              else
                let head :=
                  match _head l with
                  | None => Some item
                  | Some h => Some (store_next h (tail_depth h) (Some item))
                  end in
                mkOutcome LINKEDLIST_SUCCESS (Some (set_head l head)) tt
                  (before_lock ++ [ev_unlock])
          end
    end.

(** [linkedlist_remove].  The counter of the search loop is compared with
    [index - 1], and the branch is only entered with [index != 0]. *)
Definition linkedlist_remove (lock : Z) (list : option LinkedList)
    (index : nat) : Outcome unit :=
  if negb (linkedlist_initialized list) then mkOutcome EINVAL list tt []
  else
    match list with
    | None => mkOutcome EINVAL list tt []
    | Some l =>
        if negb (lock =? 0) then mkOutcome lock list tt [ev_lock lock]
        else
          (* do { ... } while (0): the status, [to_be_freed] and the head *)
          let '(st, to_be_freed, head) :=
            match _head l with
            | None => (ERANGE, None, _head l)
            | Some h =>
                match index with
                | O => (LINKEDLIST_SUCCESS, Some h, _next h)
                | S depth =>
                    match walk (Some h) depth with
                    | None => (ERANGE, None, _head l)
                    | Some current =>
                        match _next current with
                        | None => (ERANGE, None, _head l)
                        | Some victim =>
                            (LINKEDLIST_SUCCESS, Some victim,
                             Some (store_next h depth (_next victim)))
                        end
                    end
                end
            end in
          mkOutcome st (Some (set_head l head)) tt
            ([ev_lock lock; ev_unlock]
             ++ match to_be_freed with
                | None => []
                | Some item => release_item (_dealloc l) item
                end)
    end.

(** [linkedlist_get] *)
Definition linkedlist_get (lock : Z) (list : option LinkedList) (index : nat)
    (buffer : option Buf) : Outcome (option Buf) :=
  if negb (linkedlist_initialized list) then mkOutcome EINVAL list buffer []
  else
    match list, buffer with
    | None, _ => mkOutcome EINVAL list buffer []
    | Some _, None => mkOutcome EINVAL list buffer []
    | Some l, Some buf =>
        if negb (lock =? 0) then mkOutcome lock list buffer [ev_lock lock]
        else
          match walk (_head l) index, _copy l with
          | None, _ => mkOutcome ERANGE list buffer [ev_lock lock; ev_unlock]
          | Some _, None =>
              (* not reached: [linkedlist_initialized] saw [_copy != NULL] *)
              mkOutcome EINVAL list buffer []
          | Some item, Some copy =>
              mkOutcome LINKEDLIST_SUCCESS list
                (Some (copy buf (_value item) (_item_size l)).2)
                [ev_lock lock; ev_copy buf (_value item) (_item_size l);
                 ev_unlock]
          end
    end.

(** [linkedlist_update] *)
Definition linkedlist_update (lock : Z) (list : option LinkedList)
    (index : nat) (value : option Buf) : Outcome unit :=
  if negb (linkedlist_initialized list) then mkOutcome EINVAL list tt []
  else
    match list, value with
    | None, _ => mkOutcome EINVAL list tt []
    | Some _, None => mkOutcome EINVAL list tt []
    | Some l, Some v =>
        if negb (lock =? 0) then mkOutcome lock list tt [ev_lock lock]
        else
          match walk (_head l) index, _head l, _copy l with
          | None, _, _ => mkOutcome ERANGE list tt [ev_lock lock; ev_unlock]
          | Some _, None, _ | Some _, _, None =>
              (* not reached: a node was found below a non-null head, and
                 [linkedlist_initialized] saw [_copy != NULL] *)
              mkOutcome EINVAL list tt []
          | Some item, Some h, Some copy =>
              (* the buffer as [_dealloc] leaves it, when it is set *)
              let released :=
                match _dealloc l with
                | Some d => d (_value item)
                | None => _value item
                end in
              let written := (copy released v (_item_size l)).2 in
              mkOutcome LINKEDLIST_SUCCESS
                (Some (set_head l (Some (store_value h index written)))) tt
                ([ev_lock lock]
                 ++ match _dealloc l with
                    | Some _ => [ev_dealloc (_value item)]
                    | None => []
                    end
                 ++ [ev_copy released v (_item_size l); ev_unlock])
          end
    end.

(** [while (current != NULL) { *length_buffer += 1; current = current->_next; }] *)
Fixpoint count_items (current : ListItem) (length_buffer : size_t) : size_t :=
  match current with
  | mkListItem _ None => size_t_add length_buffer 1%N
  | mkListItem _ (Some n) => count_items n (size_t_add length_buffer 1%N)
  end.

(** [linkedlist_length] *)
Definition linkedlist_length (lock : Z) (list : option LinkedList)
    (length_buffer : option size_t) : Outcome (option size_t) :=
  if negb (linkedlist_initialized list) then
    mkOutcome EINVAL list length_buffer []
  else
    match list, length_buffer with
    | None, _ => mkOutcome EINVAL list length_buffer []
    | Some _, None => mkOutcome EINVAL list length_buffer []
    | Some l, Some _ =>
        if negb (lock =? 0) then
          mkOutcome lock list length_buffer [ev_lock lock]
        else
          mkOutcome LINKEDLIST_SUCCESS list
            (Some match _head l with
                  | None => 0%N
                  | Some h => count_items h 0%N
                  end)
            [ev_lock lock; ev_unlock]
    end.

(** The loop of [linkedlist_destroy]: every node of the chain is released, in
    order. *)
Fixpoint destroy_items (dealloc : option linkedlist_deallocfunction_t)
    (current : ListItem) : Trace :=
  match current with
  | mkListItem v None => release_item dealloc (mkListItem v None)
  | mkListItem v (Some n) =>
      release_item dealloc (mkListItem v (Some n)) ++ destroy_items dealloc n
  end.

(** [linkedlist_destroy]: it returns nothing; the pair is the list struct
    behind the handle and the events of the call. *)
Definition linkedlist_destroy (list : option LinkedList)
  : (option LinkedList * Trace)%type :=
  match list with
  | None => (None, [])
  | Some l =>
      (Some {| _head := None;
               _item_size := _item_size l;
               _copy := None;
               _dealloc := None |},
       match _head l with
       | None => []
       | Some h => destroy_items (_dealloc l) h
       end ++ [ev_mutex_destroy])
  end.

(** ** The elements of a list, in index order *)

Fixpoint values_from (item : ListItem) : list Buf :=
  match item with
  | mkListItem v None => [v]
  | mkListItem v (Some n) => v :: values_from n
  end.

Definition values (head : option ListItem) : list Buf :=
  match head with
  | None => []
  | Some h => values_from h
  end.

Definition elements (l : LinkedList) : list Buf := values (_head l).

(** A copy hook that transfers an element of [n] bytes unchanged, as
    [memcpy] does. *)
Definition copies_bytes (copy : linkedlist_copyfunction_t) (n : size_t) : Prop :=
  forall dest src : Buf,
    length dest = N.to_nat n -> length src = N.to_nat n ->
    (copy dest src n).2 = src.

(** The members of the struct that [linkedlist_initialize] sets and no other
    operation but [linkedlist_destroy] assigns. *)
Definition same_configuration (l l' : LinkedList) : Prop :=
  _item_size l' = _item_size l
  /\ _copy l' = _copy l
  /\ _dealloc l' = _dealloc l.

(** ** Sequences of calls *)

Inductive Call : Type :=
| call_add (env : Env) (value : option Buf)
| call_remove (lock : Z) (index : nat)
| call_get (lock : Z) (index : nat) (buffer : option Buf)
| call_update (lock : Z) (index : nat) (value : option Buf)
| call_length (lock : Z) (length_buffer : option size_t).

(** Every call of a sequence with the status it returned. *)
Definition Log : Type := list (Call * Z)%type.

(** One call on the list behind the handle: its status and the list after. *)
Definition perform (c : Call) (list : option LinkedList)
  : (Z * option LinkedList)%type :=
  match c with
  | call_add env value =>
      let r := linkedlist_add env list value in (status r, list_after r)
  | call_remove lock index =>
      let r := linkedlist_remove lock list index in (status r, list_after r)
  | call_get lock index buffer =>
      let r := linkedlist_get lock list index buffer in (status r, list_after r)
  | call_update lock index value =>
      let r := linkedlist_update lock list index value in (status r, list_after r)
  | call_length lock length_buffer =>
      let r := linkedlist_length lock list length_buffer in
      (status r, list_after r)
  end.

(** The calls in order, each on the list the previous one left; the result is
    the list after the last call and every call with its status. *)
Fixpoint run (calls : list Call) (list : option LinkedList)
  : (option LinkedList * Log)%type :=
  match calls with
  | [] => (list, [])
  | c :: calls' =>
      let '(st, list') := perform c list in
      let '(final, log) := run calls' list' in
      (final, (c, st) :: log)
  end.

Definition is_successful_add (entry : (Call * Z)%type) : bool :=
  match entry with
  | (call_add _ _, st) => st =? LINKEDLIST_SUCCESS
  | _ => false
  end.

Definition is_successful_remove (entry : (Call * Z)%type) : bool :=
  match entry with
  | (call_remove _ _, st) => st =? LINKEDLIST_SUCCESS
  | _ => false
  end.

Definition successful_adds (log : Log) : nat :=
  length (List.filter is_successful_add log).

Definition successful_removes (log : Log) : nat :=
  length (List.filter is_successful_remove log).

(** ** Reading traces *)

(** The number of blocks a call allocated and did not free. *)
Fixpoint live_blocks (t : Trace) : Z :=
  match t with
  | [] => 0
  | ev_malloc_item true :: t' => live_blocks t' + 1
  | ev_malloc_value _ true :: t' => live_blocks t' + 1
  | ev_free_value _ :: t' => live_blocks t' - 1
  | ev_free_item :: t' => live_blocks t' - 1
  | _ :: t' => live_blocks t'
  end.

(** The events that read, write or release an element or a node: a call of
    the copy or dealloc hook, a [free]. *)
Definition touches_elements (e : Event) : bool :=
  match e with
  | ev_copy _ _ _ | ev_dealloc _ | ev_free_value _ | ev_free_item => true
  | _ => false
  end.

(** A call that returned [EINVAL] before it called the mutex, the allocator
    or a hook, and that left the list struct and the caller's buffer as they
    were. *)
Definition rejected {A : Type} (list : option LinkedList) (buffer : A)
    (r : Outcome A) : Prop :=
  status r = EINVAL
  /\ events r = []
  /\ list_after r = list
  /\ output r = buffer.

(** The list struct as [linkedlist_destroy] leaves it. *)
Definition destroyed (l : LinkedList) : LinkedList :=
  {| _head := None; _item_size := _item_size l; _copy := None;
     _dealloc := None |}.

(** ** Concrete lists used as test inputs *)

Definition int42 : Buf := [Byte.x2a; Byte.x00; Byte.x00; Byte.x00].
Definition int69 : Buf := [Byte.x45; Byte.x00; Byte.x00; Byte.x00].
Definition int1234 : Buf := [Byte.xd2; Byte.x04; Byte.x00; Byte.x00].
Definition zeroes : Buf := [Byte.x00; Byte.x00; Byte.x00; Byte.x00].

Definition good_env : Env :=
  {| env_malloc_item := true;
     env_malloc_value := Some (fun _ => Byte.xff);
     env_lock := 0 |}.

(** An empty list of 4-byte elements with the default hooks. *)
Definition empty_int_list : LinkedList :=
  {| _head := None; _item_size := 4%N; _copy := Some memcpy; _dealloc := None |}.

(** The list holding 42 and 69. *)
Definition two_int_list : LinkedList :=
  set_head empty_int_list
    (Some (mkListItem int42 (Some (mkListItem int69 None)))).

(** A copy hook that fails: it returns [NULL] and writes nothing. *)
Definition failing_copy : linkedlist_copyfunction_t :=
  fun dest _ _ => (false, dest).

(** A list of 4-byte elements with that hook, holding 42. *)
Definition failing_copy_list : LinkedList :=
  {| _head := Some (mkListItem int42 None);
     _item_size := 4%N;
     _copy := Some failing_copy;
     _dealloc := None |}.

(** The dealloc hook of the tests, on bytes: it clears the element. *)
Definition clearing_dealloc : linkedlist_deallocfunction_t :=
  fun value => map (fun _ => Byte.x00) value.

(** The scenario of the specification: add 42, add 69, update index 1 to
    1234, get index 1, remove index 0. *)
Definition scenario : list Call :=
  [call_add good_env (Some int42);
   call_add good_env (Some int69);
   call_update 0 1 (Some int1234);
   call_get 0 1 (Some zeroes);
   call_remove 0 0].

(** ** The list as a sequence of elements *)

(** What one call does to the sequence [xs] of the elements of an
    initialized list with element size [n] and the hooks [copy] and
    [dealloc]: the status it returns and the sequence it leaves. *)
Definition sequence_step (n : size_t) (copy : linkedlist_copyfunction_t)
    (dealloc : option linkedlist_deallocfunction_t) (c : Call) (xs : list Buf)
  : (Z * list Buf)%type :=
  match c with
  | call_add env None => (EINVAL, xs)
  | call_add env (Some v) =>
      if negb (env_malloc_item env) then (ENOMEM, xs)
      else
        match malloc (env_malloc_value env) n with
        | None => (ENOMEM, xs)
        | Some fresh =>
            if env_lock env =? 0
            then (LINKEDLIST_SUCCESS, xs ++ [(copy fresh v n).2])
            else (env_lock env, xs)
        end
  | call_remove lock index =>
      if negb (lock =? 0) then (lock, xs)
      else
        match xs !! index with
        | Some _ => (LINKEDLIST_SUCCESS, delete index xs)
        | None => (ERANGE, xs)
        end
  | call_get lock index None => (EINVAL, xs)
  | call_get lock index (Some _) =>
      if negb (lock =? 0) then (lock, xs)
      else
        match xs !! index with
        | Some _ => (LINKEDLIST_SUCCESS, xs)
        | None => (ERANGE, xs)
        end
  | call_update lock index None => (EINVAL, xs)
  | call_update lock index (Some v) =>
      if negb (lock =? 0) then (lock, xs)
      else
        match xs !! index with
        | Some x =>
            (LINKEDLIST_SUCCESS,
             <[index := (copy match dealloc with
                              | Some d => d x
                              | None => x
                              end v n).2]> xs)
        | None => (ERANGE, xs)
        end
  | call_length lock None => (EINVAL, xs)
  | call_length lock (Some _) =>
      if negb (lock =? 0) then (lock, xs) else (LINKEDLIST_SUCCESS, xs)
  end.

(** The calls in order on a sequence: the sequence after the last one and
    the status of each. *)
Fixpoint sequence_run (n : size_t) (copy : linkedlist_copyfunction_t)
    (dealloc : option linkedlist_deallocfunction_t) (calls : list Call)
    (xs : list Buf) : (list Buf * list Z)%type :=
  match calls with
  | [] => (xs, [])
  | c :: calls' =>
      let '(st, xs') := sequence_step n copy dealloc c xs in
      let '(final, sts) := sequence_run n copy dealloc calls' xs' in
      (final, st :: sts)
  end.

(** ** The events of a sequence of calls *)

Definition call_events (c : Call) (list : option LinkedList) : Trace :=
  match c with
  | call_add env value => events (linkedlist_add env list value)
  | call_remove lock index => events (linkedlist_remove lock list index)
  | call_get lock index buffer => events (linkedlist_get lock list index buffer)
  | call_update lock index value =>
      events (linkedlist_update lock list index value)
  | call_length lock length_buffer =>
      events (linkedlist_length lock list length_buffer)
  end.

Fixpoint run_events (calls : list Call) (list : option LinkedList) : Trace :=
  match calls with
  | [] => []
  | c :: calls' => call_events c list ++ run_events calls' (perform c list).2
  end.

(** The mutex along a trace, from [held]: [None] when the trace locks a held
    mutex or unlocks a free one, otherwise whether the mutex is held at the
    end.  A [pthread_mutex_lock] that fails leaves the mutex free. *)
Fixpoint mutex_after (held : bool) (t : Trace) : option bool :=
  match t with
  | [] => Some held
  | ev_lock st :: t' => if held then None else mutex_after (st =? 0) t'
  | ev_unlock :: t' => if held then mutex_after false t' else None
  | _ :: t' => mutex_after held t'
  end.

(** The events of a trace, other than those of the mutex, that happen while
    the mutex is held. *)
Fixpoint held_events (held : bool) (t : Trace) : Trace :=
  match t with
  | [] => []
  | ev_lock st :: t' => held_events (st =? 0) t'
  | ev_unlock :: t' => held_events false t'
  | e :: t' => if held then e :: held_events held t' else held_events held t'
  end.

(** The buffers a trace hands to the dealloc hook, to [free], and the number
    of nodes it frees. *)
Definition dealloc_calls (t : Trace) : list Buf :=
  omap (fun e => match e with ev_dealloc v => Some v | _ => None end) t.

Definition freed_values (t : Trace) : list Buf :=
  omap (fun e => match e with ev_free_value v => Some v | _ => None end) t.

Definition freed_items (t : Trace) : nat :=
  length (omap (fun e => match e with ev_free_item => Some tt | _ => None end) t).

(** The element as the dealloc hook leaves it, when there is one. *)
Definition released (dealloc : option linkedlist_deallocfunction_t) (x : Buf)
  : Buf :=
  match dealloc with
  | Some d => d x
  | None => x
  end.

(** The allocations of a trace that returned a block: the number of nodes,
    and the sizes of the buffers. *)
Definition allocated_items (t : Trace) : nat :=
  length (omap (fun e => match e with
                         | ev_malloc_item true => Some tt
                         | _ => None
                         end) t).

Definition allocated_values (t : Trace) : list size_t :=
  omap (fun e => match e with
                 | ev_malloc_value n true => Some n
                 | _ => None
                 end) t.

(** The calls of [linkedlist_mutex_lock] in a trace, with what each
    returned, and the number of calls of [linkedlist_mutex_unlock]. *)
Definition lock_calls (t : Trace) : list Z :=
  omap (fun e => match e with ev_lock st => Some st | _ => None end) t.

Definition unlock_calls (t : Trace) : nat :=
  length (omap (fun e => match e with ev_unlock => Some tt | _ => None end) t).

(** The buffers that a call on a list with the elements [xs] hands to
    [free]: the element that a [linkedlist_remove] takes out, and the copy
    that a [linkedlist_add] made before the lock failed, each as the dealloc
    hook left it. *)
Definition step_freed (n : size_t) (copy : linkedlist_copyfunction_t)
    (dealloc : option linkedlist_deallocfunction_t) (c : Call) (xs : list Buf)
  : list Buf :=
  match c with
  | call_add env (Some v) =>
      if negb (env_malloc_item env) then []
      else
        match malloc (env_malloc_value env) n with
        | None => []
        | Some fresh =>
            if env_lock env =? 0 then []
            else [released dealloc (copy fresh v n).2]
        end
  | call_remove lock index =>
      if negb (lock =? 0) then []
      else
        match xs !! index with
        | Some x => [released dealloc x]
        | None => []
        end
  | _ => []
  end.

Fixpoint run_freed (n : size_t) (copy : linkedlist_copyfunction_t)
    (dealloc : option linkedlist_deallocfunction_t) (calls : list Call)
    (xs : list Buf) : list Buf :=
  match calls with
  | [] => []
  | c :: calls' =>
      step_freed n copy dealloc c xs
      ++ run_freed n copy dealloc calls'
           (sequence_step n copy dealloc c xs).2
  end.

(** Every element of the list has the size that the list was initialized
    with. *)
Definition well_sized (l : LinkedList) : Prop :=
  Forall (fun x : Buf => length x = N.to_nat (_item_size l)) (elements l).

(** The value that a call passes in, if any, has at least [n] bytes: it
    points at an object of the element size. *)
Definition value_fits (n : size_t) (c : Call) : Prop :=
  match c with
  | call_add _ (Some v) | call_update _ _ (Some v) =>
      (N.to_nat n <= length v)%nat
  | _ => True
  end.

Definition is_hook_call (e : Event) : bool :=
  match e with
  | ev_copy _ _ _ | ev_dealloc _ => true
  | _ => false
  end.

(** ** The mutex wrappers of [linkedlist-mutex.h] *)

(** [linkedlist_mutex_t] is a [void *]: [NULL], or the address of the native
    object behind the mutex.  A [linkedlist_mutex_t *] argument is [None]
    when it is [NULL] and otherwise the handle it points at. *)
Definition linkedlist_mutex_t : Type := option N.

Definition LINKEDLIST_MUTEX_SUCCESS : Z := 0.

(** [WAIT_OBJECT_0] of [windows.h]. *)
Definition WAIT_OBJECT_0 : Z := 0.

(** The calls the wrappers make, with what the platform answered. *)
Inductive MutexEvent : Type :=
| mx_malloc (result : option N)              (* malloc(sizeof(pthread_mutex_t)) *)
| mx_free (p : N)                            (* free of the block behind the handle *)
| mx_pthread_mutex_init (p : N) (status : Z)
| mx_pthread_mutex_lock (p : N) (status : Z)
| mx_pthread_mutex_unlock (p : N) (status : Z)
| mx_pthread_mutex_destroy (p : N)
| mx_CreateMutex (result : option N)
| mx_WaitForSingleObject (h : N) (status : Z)
| mx_ReleaseMutex (h : N) (status : Z)
| mx_CloseHandle (h : N).

(** What a wrapper leaves behind: its return value, the handle behind its
    argument ([None] when the argument is [NULL]) and the calls it made. *)
Record MutexOutcome : Type := mkMutexOutcome {
  mx_status : Z;
  mx_handle : option linkedlist_mutex_t;
  mx_events : list MutexEvent
}.

(** The native objects (allocated blocks, open handles) after a trace, from
    the objects [live] before it: [None] when the trace frees or closes an
    object that is not live, or hands such an object to the platform. *)
Fixpoint objects_after (live : gset N) (t : list MutexEvent)
  : option (gset N) :=
  match t with
  | [] => Some live
  | mx_malloc None :: t' | mx_CreateMutex None :: t' => objects_after live t'
  | mx_malloc (Some p) :: t' | mx_CreateMutex (Some p) :: t' =>
      objects_after ({[p]} ∪ live) t'
  | mx_free p :: t' | mx_CloseHandle p :: t' =>
      if decide (p ∈ live) then objects_after (live ∖ {[p]}) t' else None
  | mx_pthread_mutex_init p _ :: t' | mx_pthread_mutex_lock p _ :: t'
  | mx_pthread_mutex_unlock p _ :: t' | mx_pthread_mutex_destroy p :: t'
  | mx_WaitForSingleObject p _ :: t' | mx_ReleaseMutex p _ :: t' =>
      if decide (p ∈ live) then objects_after live t' else None
  end.

(** [pthread-mutex.c] *)
Module PthreadMutex.

(** [linkedlist_mutex_initialize]; [malloc_answer] is what [malloc] returns
    and [native] what [pthread_mutex_init] returns. *)
Definition linkedlist_mutex_initialize (malloc_answer : option N) (native : Z)
    (lock : option linkedlist_mutex_t) : MutexOutcome :=
  match lock with
  | None => mkMutexOutcome EINVAL lock []
  | Some _ =>
      match malloc_answer with
      | None => mkMutexOutcome ENOMEM (Some None) [mx_malloc None]
      | Some p =>
          if negb (native =? 0) then
            mkMutexOutcome native (Some (Some p))
              [mx_malloc (Some p); mx_pthread_mutex_init p native; mx_free p]
          else
            mkMutexOutcome LINKEDLIST_MUTEX_SUCCESS (Some (Some p))
              [mx_malloc (Some p); mx_pthread_mutex_init p native]
      end
  end.

(** [linkedlist_mutex_lock]; [native] is what [pthread_mutex_lock] returns. *)
Definition linkedlist_mutex_lock (native : Z)
    (lock : option linkedlist_mutex_t) : MutexOutcome :=
  match lock with
  | None | Some None => mkMutexOutcome EINVAL lock []
  | Some (Some p) =>
      if negb (native =? 0) then
        mkMutexOutcome native lock [mx_pthread_mutex_lock p native]
      else
        mkMutexOutcome LINKEDLIST_MUTEX_SUCCESS lock
          [mx_pthread_mutex_lock p native]
  end.

(** [linkedlist_mutex_unlock]; [native] is what [pthread_mutex_unlock]
    returns. *)
Definition linkedlist_mutex_unlock (native : Z)
    (lock : option linkedlist_mutex_t) : MutexOutcome :=
  match lock with
  | None | Some None => mkMutexOutcome EINVAL lock []
  | Some (Some p) =>
      if negb (native =? 0) then
        mkMutexOutcome native lock [mx_pthread_mutex_unlock p native]
      else
        mkMutexOutcome LINKEDLIST_MUTEX_SUCCESS lock
          [mx_pthread_mutex_unlock p native]
  end.

(** [linkedlist_mutex_destroy]: it returns nothing; the pair is the handle
    behind its argument and the calls it made. *)
Definition linkedlist_mutex_destroy (lock : option linkedlist_mutex_t)
  : (option linkedlist_mutex_t * list MutexEvent)%type :=
  match lock with
  | Some (Some p) => (Some None, [mx_pthread_mutex_destroy p; mx_free p])
  | _ => (lock, [])
  end.

End PthreadMutex.

(** [win32-mutex.c] *)
Module Win32Mutex.

(** [linkedlist_mutex_initialize]; [created] is what [CreateMutex]
    returns. *)
Definition linkedlist_mutex_initialize (created : option N)
    (lock : option linkedlist_mutex_t) : MutexOutcome :=
  match lock with
  | None => mkMutexOutcome EINVAL lock []
  | Some _ =>
      match created with
      | None => mkMutexOutcome ENOMEM (Some None) [mx_CreateMutex None]
      | Some h =>
          mkMutexOutcome LINKEDLIST_MUTEX_SUCCESS (Some (Some h))
            [mx_CreateMutex (Some h)]
      end
  end.

(** [linkedlist_mutex_lock]; [native] is what [WaitForSingleObject] returns,
    as the [int] it is stored in. *)
Definition linkedlist_mutex_lock (native : Z)
    (lock : option linkedlist_mutex_t) : MutexOutcome :=
  match lock with
  | None | Some None => mkMutexOutcome EINVAL lock []
  | Some (Some h) =>
      if negb (native =? WAIT_OBJECT_0) then
        mkMutexOutcome native lock [mx_WaitForSingleObject h native]
      else
        mkMutexOutcome LINKEDLIST_MUTEX_SUCCESS lock
          [mx_WaitForSingleObject h native]
  end.

(** [linkedlist_mutex_unlock]; [native] is the [BOOL] that [ReleaseMutex]
    returns. *)
Definition linkedlist_mutex_unlock (native : Z)
    (lock : option linkedlist_mutex_t) : MutexOutcome :=
  match lock with
  | None | Some None => mkMutexOutcome EINVAL lock []
  | Some (Some h) =>
      if native =? 0 then
        mkMutexOutcome EINVAL lock [mx_ReleaseMutex h native]
      else
        mkMutexOutcome LINKEDLIST_MUTEX_SUCCESS lock
          [mx_ReleaseMutex h native]
  end.

(** [linkedlist_mutex_destroy] *)
Definition linkedlist_mutex_destroy (lock : option linkedlist_mutex_t)
  : (option linkedlist_mutex_t * list MutexEvent)%type :=
  match lock with
  | Some (Some h) => (Some None, [mx_CloseHandle h])
  | _ => (lock, [])
  end.

End Win32Mutex.

(** ** The hooks of the tests and of the example for a custom type *)

(** [ByteBuffer]: the members [length] and [data] of the struct; [data] is
    [None] for [NULL] and otherwise the address of a block of bytes. *)
Record ByteBuffer : Type := mkByteBuffer {
  bb_length : size_t;
  bb_data : option N
}.

(** The blocks of bytes that [data] members point at. *)
Abbreviation Heap := (gmap N (list byte)).

(** What a hook leaves behind: whether it returned a non-null pointer, the
    struct behind its first argument, and the heap. *)
Record HookOutcome : Type := mkHookOutcome {
  hk_returned : bool;
  hk_struct : option ByteBuffer;
  hk_heap : Heap
}.

(** [bytebuffer_copy].  [malloc_answer] is what [malloc] returns.  The
    result is [None] where the C code has no defined behaviour: [memcpy]
    reads [src->length] bytes at [src->data], which must be a block of at
    least that size. *)
Definition bytebuffer_copy (malloc_answer : option N) (heap : Heap)
    (dest src : option ByteBuffer) (n : size_t) : option HookOutcome :=
  match dest, src with
  | None, _ | _, None => Some (mkHookOutcome false dest heap)
  | Some d, Some s =>
      if (0 <? bb_length s)%N then
        match bb_data s with
        | None => Some (mkHookOutcome false dest heap)
        | Some from =>
            match malloc_answer with
            | None =>
                Some (mkHookOutcome false
                        (Some (mkByteBuffer (bb_length d) None)) heap)
            | Some to =>
                match heap !! from with
                | None => None
                | Some block =>
                    if (length block <? N.to_nat (bb_length s))%nat then None
                    else
                      Some (mkHookOutcome true
                              (Some (mkByteBuffer (bb_length s) (Some to)))
                              (<[to := take (N.to_nat (bb_length s)) block]>
                                 heap))
                end
            end
        end
      else
        Some (mkHookOutcome true (Some (mkByteBuffer (bb_length s) None)) heap)
  end.

(** [bytebuffer_dealloc].  The result is [None] where [free] is handed an
    address that is not the address of a block. *)
Definition bytebuffer_dealloc (heap : Heap) (ptr : option ByteBuffer)
  : option (option ByteBuffer * Heap) :=
  match ptr with
  | None => Some (None, heap)
  | Some b =>
      match (0 <? bb_length b)%N, bb_data b with
      | true, Some p =>
          match heap !! p with
          | Some _ => Some (Some (mkByteBuffer 0%N None), delete p heap)
          | None => None
          end
      | _, _ => Some (Some (mkByteBuffer 0%N None), heap)
      end
  end.

(** A [ByteBuffer] as the example would print it: no data, or a block of at
    least [length] bytes. *)
Definition valid_bytebuffer (heap : Heap) (b : ByteBuffer) : Prop :=
  bb_length b = 0%N
  \/ exists p block,
       bb_data b = Some p /\ heap !! p = Some block
       /\ (N.to_nat (bb_length b) <= length block)%nat.

(** The bytes of a [ByteBuffer]. *)
Definition bytes_of (heap : Heap) (b : ByteBuffer) : list byte :=
  match bb_data b with
  | Some p =>
      match heap !! p with
      | Some block => take (N.to_nat (bb_length b)) block
      | None => []
      end
  | None => []
  end.

(** A heap with one block, and a [ByteBuffer] of its first four bytes. *)
Definition one_block_heap : Heap := {[ 8%N := int1234 ++ int42 ]}.
Definition four_bytes : ByteBuffer := mkByteBuffer 4%N (Some 8%N).

(** ** Printing a [ByteBuffer] in the example *)

(** [sizeof(FORMAT_BUFFER)] *)
Definition FORMAT_BUFFER_SIZE : N := 1024.

(** One digit of ["%02X"]. *)
Definition hex_digit (d : N) : ascii :=
  nth (N.to_nat d)
    ["0"; "1"; "2"; "3"; "4"; "5"; "6"; "7"; "8"; "9";
     "A"; "B"; "C"; "D"; "E"; "F"]%char "0"%char.

(** The four characters that ["0x%02X"] prints for a byte. *)
Definition hex_byte (b : byte) : list ascii :=
  ["0"%char; "x"%char; hex_digit (Byte.to_N b / 16); hex_digit (Byte.to_N b mod 16)].

(** What [sprintf(..., "0x%02X,", b)] stores: the text and its terminating
    null character. *)
Definition sprintf_byte (b : byte) : list ascii :=
  hex_byte b ++ [","%char; Ascii.zero].

(** Storing the characters [cs] into the array [buf] from index [offset]
    on: [None] when one of them would fall outside the array. *)
Definition store_chars (buf : list ascii) (offset : N) (cs : list ascii)
  : option (list ascii) :=
  if (N.to_nat offset + length cs <=? length buf)%nat then
    Some (take (N.to_nat offset) buf ++ cs
          ++ drop (N.to_nat offset + length cs) buf)
  else None.

(** [for (; i < buffer->length; i++) sprintf(1 + FORMAT_BUFFER + i * (4 + 1),
    "0x%02X,", buffer->data[i]);] with [count] iterations left: [None] when
    it reads outside the block of the data or stores outside the array. *)
Fixpoint format_bytes (block : list byte) (count : nat) (i : N)
    (buf : list ascii) : option (list ascii) :=
  match count with
  | O => Some buf
  | S count' =>
      match block !! N.to_nat i with
      | None => None
      | Some b =>
          match store_chars buf (1 + i * (4 + 1)) (sprintf_byte b) with
          | None => None
          | Some buf' => format_bytes block count' (i + 1) buf'
          end
      end
  end.

(** How a call of [bytebuffer_to_string] ends: an assertion fails, it
    returns the string literal, it returns [FORMAT_BUFFER] (with the contents
    given), or it has read or stored out of bounds. *)
Inductive ToString : Type :=
| ts_assertion_failed
| ts_literal (s : list ascii)
| ts_buffer (FORMAT_BUFFER : list ascii)
| ts_out_of_bounds.

(** [bytebuffer_to_string], with the static array [FORMAT_BUFFER] as the
    previous call left it.  [string_length] is computed in [size_t]. *)
Definition bytebuffer_to_string (heap : Heap) (FORMAT_BUFFER : list ascii)
    (buffer : option ByteBuffer) : ToString :=
  match buffer with
  | None => ts_assertion_failed
  | Some b =>
      match (bb_length b =? 0)%N, bb_data b with
      | false, None => ts_assertion_failed
      | true, _ => ts_literal ["["; "]"]%char
      | false, Some p =>
          let string_length :=
            ((1 + bb_length b * 4 + (bb_length b - 1) + 1 + 1)
             mod 2 ^ SIZE_WIDTH)%N in
          if negb (string_length <=? FORMAT_BUFFER_SIZE)%N then
            ts_assertion_failed
          else
            match heap !! p with
            | None => ts_out_of_bounds
            | Some block =>
                match store_chars FORMAT_BUFFER 0 ["["%char] with
                | None => ts_out_of_bounds
                | Some buf0 =>
                    match format_bytes block (N.to_nat (bb_length b)) 0 buf0 with
                    | None => ts_out_of_bounds
                    | Some buf1 =>
                        match store_chars buf1 (string_length - 1 - 1)
                                ["]"%char] with
                        | None => ts_out_of_bounds
                        | Some buf2 =>
                            match store_chars buf2 (string_length - 1)
                                    [Ascii.zero] with
                            | None => ts_out_of_bounds
                            | Some buf3 => ts_buffer buf3
                            end
                        end
                    end
                end
            end
      end
  end.

(** The C string in a character array: the characters before the first null
    character. *)
Fixpoint c_string (buf : list ascii) : list ascii :=
  match buf with
  | [] => []
  | c :: rest => if Ascii.eqb c Ascii.zero then [] else c :: c_string rest
  end.

(** The bytes in hexadecimal, separated by commas. *)
Fixpoint hex_list (bytes : list byte) : list ascii :=
  match bytes with
  | [] => []
  | [b] => hex_byte b
  | b :: rest => hex_byte b ++ ","%char :: hex_list rest
  end.

(** The five characters per byte that the loop of [bytebuffer_to_string]
    leaves in the array. *)
Definition hex_byte_comma (b : byte) : list ascii := hex_byte b ++ [","%char].

(** ** Induction along a chain *)

(** The last node of a chain, then a node in front of a chain. *)
Fixpoint chain_ind (P : ListItem -> Prop)
    (Hlast : forall v, P (mkListItem v None))
    (Hnode : forall v n, P n -> P (mkListItem v (Some n)))
    (item : ListItem) : P item :=
  match item with
  | mkListItem v None => Hlast v
  | mkListItem v (Some n) => Hnode v n (chain_ind P Hlast Hnode n)
  end.

(** ** Reasoning about chains *)

Local Close Scope Z_scope.

Lemma values_from_unfold item :
  values_from item = _value item :: values (_next item).
Proof. by destruct item as [v [n|]]. Qed.

Lemma values_from_length item : length (values_from item) = S (tail_depth item).
Proof. induction item as [v|v n IH] using chain_ind; simpl; [done | by rewrite IH]. Qed.

Lemma values_nil head : values head = [] -> head = None.
Proof.
  destruct head as [h|]; [|done].
  simpl. rewrite values_from_unfold. done.
Qed.

(** Walking [count] nodes down drops the first [count] elements. *)
Lemma values_walk head count : values (walk head count) = drop count (values head).
Proof.
  revert head. induction count as [|count IH]; intros head; simpl.
  - by rewrite drop_0.
  - destruct head as [h|]; [|done].
    rewrite IH. simpl. by rewrite (values_from_unfold h).
Qed.

Lemma walk_None head count :
  walk head count = None <-> length (values head) <= count.
Proof.
  split.
  - intros H. pose proof (values_walk head count) as Hv.
    rewrite H in Hv. simpl in Hv.
    destruct (decide (length (values head) <= count)) as [|Hlt]; [done|].
    assert (length (drop count (values head)) = 0) as Hl by by rewrite <- Hv.
    rewrite length_drop in Hl. lia.
  - intros H. apply values_nil. rewrite values_walk. by apply drop_ge.
Qed.

Lemma walk_Some head count :
  count < length (values head) ->
  exists item, walk head count = Some item
               /\ values head !! count = Some (_value item).
Proof.
  intros Hlt. destruct (walk head count) as [item|] eqn:Hw.
  - exists item. split; [done|].
    pose proof (values_walk head count) as Hv. rewrite Hw in Hv.
    simpl in Hv. rewrite values_from_unfold in Hv.
    rewrite <- (Nat.add_0_r count), <- lookup_drop, <- Hv. done.
  - apply walk_None in Hw. lia.
Qed.

Lemma walk_S head count :
  walk head (S count) = match walk head count with
                        | None => None
                        | Some item => _next item
                        end.
Proof.
  revert head. induction count as [|count IH]; intros head.
  - by destruct head.
  - destruct head as [h|]; [|done].
    change (walk (Some h) (S (S count))) with (walk (_next h) (S count)).
    rewrite IH. done.
Qed.

(** A store into [_next] of the node at [depth] cuts the chain after that
    node and continues it with [next]. *)
Lemma values_store_next head depth next :
  depth < length (values_from head) ->
  values_from (store_next head depth next)
  = take (S depth) (values_from head) ++ values next.
Proof.
  revert depth. induction head as [v|v n IH] using chain_ind; intros depth Hlt.
  - simpl in Hlt. assert (depth = 0) as -> by lia.
    simpl. by destruct next.
  - destruct depth as [|depth].
    + simpl. by destruct next.
    + simpl. rewrite IH; [done|]. simpl in Hlt. lia.
Qed.

(** A store into the buffer of the node at [depth] replaces that element. *)
Lemma values_store_value head depth value :
  values_from (store_value head depth value)
  = <[depth := value]> (values_from head).
Proof.
  revert depth. induction head as [v|v n IH] using chain_ind; intros depth.
  - by destruct depth.
  - destruct depth as [|depth]; simpl; [done|]. by rewrite IH.
Qed.

(** The counting loop adds the number of nodes, modulo the width of
    [size_t]. *)
Lemma count_items_spec head acc :
  count_items head acc
  = ((acc + N.of_nat (length (values_from head))) mod 2 ^ SIZE_WIDTH)%N.
Proof.
  revert acc. induction head as [v|v n IH] using chain_ind; intros acc.
  - done.
  - simpl count_items. rewrite IH. unfold size_t_add.
    rewrite N.Div0.add_mod_idemp_l. f_equal. simpl length. lia.
Qed.

Lemma set_head_same l : set_head l (_head l) = l.
Proof. by destruct l. Qed.

Lemma initialized_copy l :
  linkedlist_initialized (Some l) = true ->
  exists copy, _copy l = Some copy /\ (_item_size l =? 0)%N = false.
Proof.
  unfold linkedlist_initialized. intros H.
  apply andb_true_iff in H as [Hs Hc].
  destruct (_copy l) as [copy|]; [|done].
  exists copy. split; [done|]. by apply negb_true_iff.
Qed.

Lemma malloc_length answer n buf :
  malloc answer n = Some buf -> length buf = N.to_nat n.
Proof.
  destruct answer as [junk|]; [|done]. simpl. intros [= <-].
  by rewrite length_map, length_seq.
Qed.

Lemma memcpy_copies_bytes n : copies_bytes memcpy n.
Proof.
  intros dest src Hd Hs. unfold memcpy. simpl.
  rewrite take_ge, drop_ge by lia. by rewrite app_nil_r.
Qed.

(** ** What each operation does on an initialized list *)

Lemma lookup_walk head index :
  values head !! index = _value <$> walk head index.
Proof.
  destruct (walk head index) as [item|] eqn:Hw.
  - destruct (decide (index < length (values head))) as [Hlt|Hge].
    + destruct (walk_Some head index Hlt) as (item' & Hw' & Hl).
      rewrite Hw in Hw'. by injection Hw' as <-.
    + assert (walk head index = None) as Hn by (apply walk_None; lia).
      congruence.
  - simpl. apply lookup_ge_None. by apply walk_None.
Qed.

Section Initialized.
Variable l : LinkedList.
Variable copy : linkedlist_copyfunction_t.
Hypothesis Hinit : linkedlist_initialized (Some l) = true.
Hypothesis Hcopy : _copy l = Some copy.

(** [linkedlist_get] with the lock acquired and a buffer to write to. *)
Lemma linkedlist_get_spec index buf :
  linkedlist_get 0 (Some l) index (Some buf)
  = match elements l !! index with
    | Some x =>
        mkOutcome LINKEDLIST_SUCCESS (Some l)
          (Some (copy buf x (_item_size l)).2)
          [ev_lock 0; ev_copy buf x (_item_size l); ev_unlock]
    | None => mkOutcome ERANGE (Some l) (Some buf) [ev_lock 0; ev_unlock]
    end.
Proof.
  unfold linkedlist_get, elements. rewrite Hinit, Hcopy. simpl.
  rewrite lookup_walk. by destruct (walk (_head l) index).
Qed.

(** [linkedlist_update] with the lock acquired and a value to copy. *)
Lemma linkedlist_update_spec index v :
  match elements l !! index with
  | Some x =>
      let released :=
        match _dealloc l with Some d => d x | None => x end in
      exists l',
        linkedlist_update 0 (Some l) index (Some v)
        = mkOutcome LINKEDLIST_SUCCESS (Some l') tt
            ([ev_lock 0]
             ++ match _dealloc l with
                | Some _ => [ev_dealloc x]
                | None => []
                end
             ++ [ev_copy released v (_item_size l); ev_unlock])
        /\ elements l'
           = <[index := (copy released v (_item_size l)).2]> (elements l)
        /\ _item_size l' = _item_size l
        /\ _copy l' = _copy l
        /\ _dealloc l' = _dealloc l
  | None =>
      linkedlist_update 0 (Some l) index (Some v)
      = mkOutcome ERANGE (Some l) tt [ev_lock 0; ev_unlock]
  end.
Proof.
  unfold linkedlist_update, elements. rewrite Hinit, Hcopy. simpl.
  rewrite lookup_walk.
  destruct (walk (_head l) index) as [item|] eqn:Hw; simpl; [|done].
  destruct (_head l) as [h|] eqn:Hh.
  - eexists. split; [reflexivity|]. simpl.
    by rewrite values_store_value.
  - by destruct index.
Qed.

(** [linkedlist_remove] with the lock acquired. *)
Lemma linkedlist_remove_spec index :
  match elements l !! index with
  | Some x =>
      exists l' victim,
        linkedlist_remove 0 (Some l) index
        = mkOutcome LINKEDLIST_SUCCESS (Some l') tt
            ([ev_lock 0; ev_unlock] ++ release_item (_dealloc l) victim)
        /\ _value victim = x
        /\ elements l' = delete index (elements l)
        /\ _item_size l' = _item_size l
        /\ _copy l' = _copy l
        /\ _dealloc l' = _dealloc l
  | None =>
      linkedlist_remove 0 (Some l) index
      = mkOutcome ERANGE (Some l) tt [ev_lock 0; ev_unlock]
  end.
Proof.
  unfold linkedlist_remove, elements. rewrite Hinit. simpl.
  destruct (_head l) as [h|] eqn:Hh; simpl.
  2:{ by rewrite <- Hh, set_head_same. }
  destruct index as [|depth].
  - rewrite values_from_unfold. simpl.
    exists (set_head l (_next h)), h. done.
  - pose proof (lookup_walk (Some h) (S depth)) as Hl.
    rewrite walk_S in Hl. simpl values in Hl. rewrite Hl.
    destruct (walk (Some h) depth) as [current|] eqn:Hw; simpl.
    2:{ by rewrite <- Hh, set_head_same. }
    destruct (_next current) as [victim|] eqn:Hn; simpl.
    2:{ by rewrite <- Hh, set_head_same. }
    eexists _, victim. split; [reflexivity|]. split; [done|].
    split; [|done]. simpl.
    assert (depth < length (values_from h)) as Hlt.
    { destruct (decide (depth < length (values_from h))); [done|].
      assert (walk (Some h) depth = None) by (apply walk_None; simpl; lia).
      congruence. }
    rewrite values_store_next by done.
    rewrite delete_take_drop. f_equal.
    pose proof (values_walk (Some h) (S (S depth))) as Hv.
    rewrite walk_S, walk_S, Hw, Hn in Hv. done.
Qed.

(** [linkedlist_add] when both allocations succeed and the lock is
    acquired. *)
Lemma linkedlist_add_spec env v fresh :
  env_malloc_item env = true ->
  malloc (env_malloc_value env) (_item_size l) = Some fresh ->
  env_lock env = 0%Z ->
  exists l',
    linkedlist_add env (Some l) (Some v)
    = mkOutcome LINKEDLIST_SUCCESS (Some l') tt
        [ev_malloc_item true; ev_malloc_value (_item_size l) true;
         ev_copy fresh v (_item_size l); ev_lock 0; ev_unlock]
    /\ elements l' = elements l ++ [(copy fresh v (_item_size l)).2]
    /\ _item_size l' = _item_size l
    /\ _copy l' = _copy l
    /\ _dealloc l' = _dealloc l.
Proof.
  intros Hitem Hvalue Hlock.
  unfold linkedlist_add, elements. rewrite Hinit, Hcopy, Hitem, Hvalue, Hlock.
  simpl. eexists. split; [reflexivity|]. split; [|done]. simpl.
  destruct (_head l) as [h|]; simpl; [|done].
  rewrite values_store_next by (rewrite values_from_length; lia).
  rewrite <- values_from_length. by rewrite firstn_all.
Qed.

(** [linkedlist_length] with the lock acquired and a buffer to write to. *)
Lemma linkedlist_length_spec b :
  linkedlist_length 0 (Some l) (Some b)
  = mkOutcome LINKEDLIST_SUCCESS (Some l)
      (Some (N.of_nat (length (elements l)) mod 2 ^ SIZE_WIDTH)%N)
      [ev_lock 0; ev_unlock].
Proof.
  unfold linkedlist_length, elements. rewrite Hinit. simpl.
  destruct (_head l) as [h|]; simpl; [|done].
  by rewrite count_items_spec.
Qed.
End Initialized.

(** A successful [linkedlist_add] was called on an initialized list with a
    value, both allocations succeeded and the lock was acquired. *)
Lemma linkedlist_add_success_inv env list value :
  status (linkedlist_add env list value) = LINKEDLIST_SUCCESS ->
  exists l v fresh,
    list = Some l /\ value = Some v
    /\ linkedlist_initialized (Some l) = true
    /\ env_malloc_item env = true
    /\ malloc (env_malloc_value env) (_item_size l) = Some fresh
    /\ env_lock env = 0%Z.
Proof.
  unfold linkedlist_add.
  destruct (linkedlist_initialized list) eqn:Hinit; simpl; [|done].
  destruct list as [l|]; [|done]. destruct value as [v|]; [|done].
  destruct (env_malloc_item env) eqn:Hitem; simpl; [|done].
  destruct (malloc (env_malloc_value env) (_item_size l)) as [fresh|] eqn:Hm;
    [|done].
  destruct (_copy l) as [copy|]; [|done].
  destruct (env_lock env =? 0)%Z eqn:Hlock; simpl.
  - intros _. exists l, v, fresh. repeat split; try done. by apply Z.eqb_eq.
  - intros H. apply Z.eqb_neq in Hlock. done.
Qed.

(** When the lock cannot be acquired, an operation that got as far as the
    lock returns the status of the lock. *)
Lemma lock_failure_status l index :
  linkedlist_initialized (Some l) = true ->
  forall lock, lock <> 0%Z ->
    (forall buf, status (linkedlist_get lock (Some l) index (Some buf)) = lock)
    /\ (forall v,
          status (linkedlist_update lock (Some l) index (Some v)) = lock)
    /\ status (linkedlist_remove lock (Some l) index) = lock.
Proof.
  intros Hinit lock Hlock. apply Z.eqb_neq in Hlock.
  unfold linkedlist_get, linkedlist_update, linkedlist_remove.
  by rewrite Hinit, Hlock.
Qed.

(** ** Every call, whatever its arguments *)

Lemma same_configuration_refl l : same_configuration l l.
Proof. done. Qed.

Lemma same_configuration_trans l1 l2 l3 :
  same_configuration l1 l2 -> same_configuration l2 l3 ->
  same_configuration l1 l3.
Proof. unfold same_configuration. intros (-> & -> & ->) (-> & -> & ->). done. Qed.

Lemma same_configuration_initialized l l' :
  same_configuration l l' ->
  linkedlist_initialized (Some l') = linkedlist_initialized (Some l).
Proof.
  unfold same_configuration, linkedlist_initialized.
  by intros (-> & -> & _).
Qed.

#[local] Hint Resolve same_configuration_refl : core.

(** A call that returns before it stores anything: the struct it leaves is
    the struct it found.  The equations in the context say which test made
    it return. *)
Ltac unchanged l :=
  exists l;
  unfold linkedlist_add, linkedlist_remove, linkedlist_update;
  repeat match goal with
         | H : ?x = _ |- context [?x] => rewrite H
         end;
  simpl; eauto.

(** [linkedlist_add] either succeeds and appends one element, or fails and
    leaves the list struct as it was. *)
Lemma linkedlist_add_cases env l value :
  exists l',
    list_after (linkedlist_add env (Some l) value) = Some l'
    /\ same_configuration l l'
    /\ ((status (linkedlist_add env (Some l) value) = LINKEDLIST_SUCCESS
         /\ exists x, elements l' = elements l ++ [x])
        \/ (status (linkedlist_add env (Some l) value) <> LINKEDLIST_SUCCESS
            /\ l' = l)).
Proof.
  destruct (linkedlist_initialized (Some l)) eqn:Hinit.
  2:{ by unchanged l. }
  destruct (initialized_copy l Hinit) as (copy & Hcopy & _).
  destruct value as [v|].
  2:{ by unchanged l. }
  destruct (env_malloc_item env) eqn:Hitem.
  2:{ by unchanged l. }
  destruct (malloc (env_malloc_value env) (_item_size l)) as [fresh|] eqn:Hm.
  2:{ by unchanged l. }
  destruct (decide (env_lock env = 0%Z)) as [Hlock|Hlock].
  - destruct (linkedlist_add_spec l copy Hinit Hcopy env v fresh Hitem Hm Hlock)
      as (l' & -> & Hel & Hcfg).
    exists l'. simpl. eauto 6.
  - apply Z.eqb_neq in Hlock as Hb. by unchanged l.
Qed.

(** [linkedlist_remove] either succeeds and the list is one element
    shorter, or fails and leaves the list struct as it was. *)
Lemma linkedlist_remove_cases lock l index :
  exists l',
    list_after (linkedlist_remove lock (Some l) index) = Some l'
    /\ same_configuration l l'
    /\ ((status (linkedlist_remove lock (Some l) index) = LINKEDLIST_SUCCESS
         /\ elements l' = delete index (elements l)
         /\ index < length (elements l))
        \/ (status (linkedlist_remove lock (Some l) index) <> LINKEDLIST_SUCCESS
            /\ l' = l)).
Proof.
  destruct (linkedlist_initialized (Some l)) eqn:Hinit.
  2:{ by unchanged l. }
  destruct (decide (lock = 0%Z)) as [->|Hlock].
  - pose proof (linkedlist_remove_spec l Hinit index) as Hrem.
    destruct (elements l !! index) as [x|] eqn:Hx.
    + destruct Hrem as (l' & victim & -> & _ & Hel & Hcfg).
      exists l'. simpl. apply lookup_lt_Some in Hx. eauto 7.
    + rewrite Hrem. exists l. simpl. eauto.
  - apply Z.eqb_neq in Hlock as Hb. by unchanged l.
Qed.

(** [linkedlist_update] keeps the number of elements, and leaves the list
    struct as it was when it fails. *)
Lemma linkedlist_update_cases lock l index value :
  exists l',
    list_after (linkedlist_update lock (Some l) index value) = Some l'
    /\ same_configuration l l'
    /\ length (elements l') = length (elements l)
    /\ (status (linkedlist_update lock (Some l) index value)
        <> LINKEDLIST_SUCCESS -> l' = l).
Proof.
  destruct (linkedlist_initialized (Some l)) eqn:Hinit.
  2:{ by unchanged l. }
  destruct (initialized_copy l Hinit) as (copy & Hcopy & _).
  destruct value as [v|].
  2:{ by unchanged l. }
  destruct (decide (lock = 0%Z)) as [->|Hlock].
  - pose proof (linkedlist_update_spec l copy Hinit Hcopy index v) as Hupd.
    destruct (elements l !! index) as [x|] eqn:Hx.
    + destruct Hupd as (l' & -> & Hel & Hcfg).
      exists l'. simpl. rewrite Hel, length_insert.
      do 3 (split; [done|]). by intros [].
    + rewrite Hupd. exists l. simpl. eauto.
  - apply Z.eqb_neq in Hlock as Hb. by unchanged l.
Qed.

(** [linkedlist_get] never assigns to the list struct or to the chain. *)
Lemma linkedlist_get_list_after lock list index buffer :
  list_after (linkedlist_get lock list index buffer) = list.
Proof.
  unfold linkedlist_get.
  destruct (linkedlist_initialized list); simpl; [|done].
  destruct list as [l|]; [|done]. destruct buffer as [buf|]; [|done].
  destruct (lock =? 0)%Z; simpl; [|done].
  destruct (walk (_head l) index); [|done]. by destruct (_copy l).
Qed.

(** Nor does [linkedlist_length]. *)
Lemma linkedlist_length_list_after lock list length_buffer :
  list_after (linkedlist_length lock list length_buffer) = list.
Proof.
  unfold linkedlist_length.
  destruct (linkedlist_initialized list); simpl; [|done].
  destruct list as [l|]; [|done]. destruct length_buffer; [|done].
  by destruct (lock =? 0)%Z.
Qed.

(** One call of a sequence on a list struct: the struct stays behind the
    handle with its configuration, and the number of elements moves by one
    exactly on a successful add or remove. *)
Lemma perform_cases c l :
  exists l',
    (perform c (Some l)).2 = Some l'
    /\ same_configuration l l'
    /\ length (elements l')
       + (if is_successful_remove (c, (perform c (Some l)).1) then 1 else 0)
       = length (elements l)
         + (if is_successful_add (c, (perform c (Some l)).1) then 1 else 0).
Proof.
  destruct c as [env value|lock index|lock index buffer|lock index value
                |lock length_buffer]; simpl.
  - destruct (linkedlist_add_cases env l value)
      as (l' & Hl' & Hcfg & [(Hst & x & Hel)|(Hst & ->)]).
    + exists l'. rewrite Hst, Hel, length_app. simpl. done.
    + exists l. apply Z.eqb_neq in Hst. rewrite Hst. by rewrite Hl'.
  - destruct (linkedlist_remove_cases lock l index)
      as (l' & Hl' & Hcfg & [(Hst & Hel & Hlt)|(Hst & ->)]).
    + exists l'. rewrite Hst, Hel. simpl.
      rewrite length_delete by by apply lookup_lt_is_Some_2.
      split; [done|]. split; [done|]. lia.
    + exists l. apply Z.eqb_neq in Hst. rewrite Hst. by rewrite Hl'.
  - rewrite linkedlist_get_list_after. exists l. eauto.
  - destruct (linkedlist_update_cases lock l index value)
      as (l' & Hl' & Hcfg & Hlen & _).
    exists l'. rewrite Hlen. done.
  - rewrite linkedlist_length_list_after. exists l. eauto.
Qed.

(** A sequence of calls on a list struct: the bookkeeping of [perform_cases]
    added up over the sequence. *)
Lemma run_cases calls l :
  exists l',
    (run calls (Some l)).1 = Some l'
    /\ same_configuration l l'
    /\ length (elements l') + successful_removes (run calls (Some l)).2
       = length (elements l) + successful_adds (run calls (Some l)).2.
Proof.
  revert l. induction calls as [|c calls IH]; intros l.
  - exists l. simpl. unfold successful_adds, successful_removes. simpl.
    eauto.
  - destruct (perform_cases c l) as (l1 & Hl1 & Hcfg1 & Hlen1).
    simpl. destruct (perform c (Some l)) as [st list1] eqn:Hp.
    cbn [fst snd] in Hl1, Hlen1. subst list1.
    destruct (IH l1) as (l' & Hl' & Hcfg & Hlen).
    destruct (run calls (Some l1)) as [final log] eqn:Hr. simpl in *.
    exists l'. split; [done|].
    split; [by eapply same_configuration_trans|].
    unfold successful_adds, successful_removes in *. simpl List.filter.
    destruct c; simpl in *; try lia;
      destruct (st =? LINKEDLIST_SUCCESS)%Z; simpl; lia.
Qed.

(** ** Creating a list, and the scenario of the specification *)

(** [linkedlist_initialize] on a handle, with a positive element size and a
    mutex that could be set up: the list is empty and initialized, the copy
    hook is the one given or [memcpy]. *)
Lemma linkedlist_initialize_spec l item_size copy dealloc :
  item_size <> 0%N ->
  exists l',
    linkedlist_initialize 0 (Some l) item_size copy dealloc
    = mkOutcome LINKEDLIST_SUCCESS (Some l') tt [ev_mutex_init 0]
    /\ linkedlist_initialized (Some l') = true
    /\ _head l' = None
    /\ _item_size l' = item_size
    /\ _copy l' = Some (match copy with Some c => c | None => memcpy end)
    /\ _dealloc l' = dealloc.
Proof.
  intros Hsize. unfold linkedlist_initialize.
  apply N.eqb_neq in Hsize as Hb. rewrite Hb. simpl.
  eexists. split; [reflexivity|]. simpl. by rewrite Hb.
Qed.

(** The list struct that [linkedlist_destroy] leaves can be initialized
    again: [linkedlist_initialize] does not look at what the struct held. *)
Lemma linkedlist_initialize_after_destroy l :
  status (linkedlist_initialize 0 (linkedlist_destroy (Some l)).1 4%N None None)
  = LINKEDLIST_SUCCESS.
Proof. done. Qed.

(** Initialize a list of 4-byte integers; add 42, 69; get(1) is 69;
    update(1, 1234); get(1) is 1234; remove(0); the length is 1 and get(0)
    is 1234. *)
Example scenario_of_the_specification :
  let l0 := list_after (linkedlist_initialize 0 (Some (destroyed empty_int_list))
                          4%N None None) in
  let l2 := (run [call_add good_env (Some int42);
                  call_add good_env (Some int69)] l0).1 in
  output (linkedlist_length 0 l2 (Some 0%N)) = Some 2%N
  /\ output (linkedlist_get 0 l2 1 (Some zeroes)) = Some int69
  /\ (run scenario l0).2.*2 = [0; 0; 0; 0; 0]%Z
  /\ output (linkedlist_length 0 (run scenario l0).1 (Some 0%N)) = Some 1%N
  /\ output (linkedlist_get 0 (run scenario l0).1 0 (Some zeroes))
     = Some int1234
  /\ status (linkedlist_get 0 (run scenario l0).1 1 (Some zeroes)) = ERANGE.
Proof. by vm_compute. Qed.

(** The tests "remove() invalid index" and "remove() empty list". *)
Example remove_invalid_index :
  status (linkedlist_remove 0 (Some two_int_list) 5) = ERANGE
  /\ status (linkedlist_remove 0 (Some two_int_list) 2) = ERANGE
  /\ status (linkedlist_remove 0 (Some empty_int_list) 0) = ERANGE.
Proof. done. Qed.

(** ** The claims *)

(** C1.  On an initialized list, a successful [linkedlist_add] of a non-null
    value [v] links one node at the tail whose buffer holds what the copy
    hook wrote from [v] into the freshly allocated buffer: the elements
    already stored keep their order and their indices, and the new element
    is at the index that was the length.  A [linkedlist_get] at that index
    right afterwards succeeds and hands back that element through the copy
    hook; with a hook that copies bytes, as the default [memcpy] does, what
    it hands back is [v]. *)
Theorem add_appends_copy_at_tail (env : Env) (l : LinkedList) (v : Buf) :
  linkedlist_initialized (Some l) = true ->
  status (linkedlist_add env (Some l) (Some v)) = LINKEDLIST_SUCCESS ->
  exists copy fresh l',
    _copy l = Some copy
    /\ malloc (env_malloc_value env) (_item_size l) = Some fresh
    /\ list_after (linkedlist_add env (Some l) (Some v)) = Some l'
    /\ let n := _item_size l in
       let stored := (copy fresh v n).2 in
       let old_length := length (elements l) in
       elements l' = elements l ++ [stored]
       /\ (forall i, i < old_length -> elements l' !! i = elements l !! i)
       /\ elements l' !! old_length = Some stored
       /\ (forall buf,
             status (linkedlist_get 0 (Some l') old_length (Some buf))
             = LINKEDLIST_SUCCESS
             /\ output (linkedlist_get 0 (Some l') old_length (Some buf))
                = Some (copy buf stored n).2)
       /\ (copies_bytes copy n -> length v = N.to_nat n ->
           stored = v
           /\ forall buf, length buf = N.to_nat n ->
                output (linkedlist_get 0 (Some l') old_length (Some buf))
                = Some v).
Proof.
  intros Hinit Hok.
  destruct (linkedlist_add_success_inv _ _ _ Hok)
    as (l0 & v0 & fresh & [= <-] & [= <-] & _ & Hitem & Hm & Hlock).
  destruct (initialized_copy l Hinit) as (copy & Hcopy & Hsize).
  destruct (linkedlist_add_spec l copy Hinit Hcopy env v fresh Hitem Hm Hlock)
    as (l' & Hadd & Hel & Hsz & Hcp & Hde).
  exists copy, fresh, l'. rewrite Hadd. simpl.
  assert (linkedlist_initialized (Some l') = true) as Hinit'.
  { unfold linkedlist_initialized in *. by rewrite Hsz, Hcp. }
  assert (_copy l' = Some copy) as Hcopy' by congruence.
  assert (elements l' !! length (elements l)
          = Some (copy fresh v (_item_size l)).2) as Hlast.
  { rewrite Hel. by apply list_lookup_middle. }
  assert (forall buf,
    linkedlist_get 0 (Some l') (length (elements l)) (Some buf)
    = mkOutcome LINKEDLIST_SUCCESS (Some l')
        (Some (copy buf (copy fresh v (_item_size l)).2 (_item_size l)).2)
        [ev_lock 0; ev_copy buf (copy fresh v (_item_size l)).2 (_item_size l);
         ev_unlock]) as Hget.
  { intros buf. rewrite (linkedlist_get_spec l' copy Hinit' Hcopy').
    by rewrite Hlast, Hsz. }
  do 4 (split; [done|]).
  split; [intros i Hi; rewrite Hel; by apply lookup_app_l|].
  split; [done|].
  split; [intros buf; by rewrite Hget|].
  intros Hbytes Hv.
  assert ((copy fresh v (_item_size l)).2 = v) as Hstored.
  { apply Hbytes; [by eapply malloc_length | done]. }
  split; [done|].
  intros buf Hbuf. rewrite Hget. simpl. rewrite Hstored. f_equal.
  by apply Hbytes.
Qed.

Lemma add_appends_copy_at_tail_witness :
  linkedlist_initialized (Some two_int_list) = true
  /\ status (linkedlist_add good_env (Some two_int_list) (Some int1234))
     = LINKEDLIST_SUCCESS
  /\ exists l',
       list_after (linkedlist_add good_env (Some two_int_list) (Some int1234))
       = Some l'
       /\ elements l' = [int42; int69; int1234]
       /\ output (linkedlist_get 0 (Some l') 2 (Some zeroes)) = Some int1234.
Proof.
  split; [reflexivity|]. split; [reflexivity|].
  destruct (add_appends_copy_at_tail good_env two_int_list int1234)
    as (copy & fresh & l' & Hcopy & Hfresh & Hl' & Hel & _ & _ & _ & Hbytes);
    [reflexivity | reflexivity |].
  injection Hcopy as <-. injection Hfresh as <-.
  destruct Hbytes as [Hstored Hget];
    [apply memcpy_copies_bytes | reflexivity |].
  exists l'. split; [exact Hl'|]. split; [exact Hel|].
  apply (Hget zeroes). reflexivity.
Defined.

(** C2.  On an initialized list of [n] elements, [linkedlist_get],
    [linkedlist_update] and [linkedlist_remove] return [ERANGE] (which is
    not [EINVAL]) for every index [i >= n], the empty list and [i = n]
    included, whenever their buffer or value is not null; the one other
    status they can return there is the one of a lock that could not be
    acquired.  For every index [i < n] none of them returns [ERANGE] (unless
    the lock itself fails with that code), and each succeeds when the lock
    is acquired and its buffer or value is not null. *)
Theorem index_out_of_range_is_ERANGE (l : LinkedList) (i : nat) :
  linkedlist_initialized (Some l) = true ->
  ERANGE <> EINVAL
  /\ (length (elements l) <= i ->
      forall lock,
        (forall buf,
           status (linkedlist_get lock (Some l) i (Some buf))
           = if (lock =? 0)%Z then ERANGE else lock)
        /\ (forall v,
              status (linkedlist_update lock (Some l) i (Some v))
              = if (lock =? 0)%Z then ERANGE else lock)
        /\ status (linkedlist_remove lock (Some l) i)
           = if (lock =? 0)%Z then ERANGE else lock)
  /\ (i < length (elements l) ->
      forall lock,
        lock <> ERANGE ->
        (forall buffer,
           status (linkedlist_get lock (Some l) i buffer) <> ERANGE)
        /\ (forall value,
              status (linkedlist_update lock (Some l) i value) <> ERANGE)
        /\ status (linkedlist_remove lock (Some l) i) <> ERANGE
        /\ (forall buf,
              status (linkedlist_get lock (Some l) i (Some buf))
              = if (lock =? 0)%Z then LINKEDLIST_SUCCESS else lock)
        /\ (forall v,
              status (linkedlist_update lock (Some l) i (Some v))
              = if (lock =? 0)%Z then LINKEDLIST_SUCCESS else lock)
        /\ status (linkedlist_remove lock (Some l) i)
           = if (lock =? 0)%Z then LINKEDLIST_SUCCESS else lock).
Proof.
  intros Hinit. destruct (initialized_copy l Hinit) as (copy & Hcopy & _).
  pose proof (linkedlist_get_spec l copy Hinit Hcopy i) as Hget.
  pose proof (linkedlist_update_spec l copy Hinit Hcopy i) as Hupd.
  pose proof (linkedlist_remove_spec l Hinit i) as Hrem.
  pose proof (lock_failure_status l i Hinit) as Hfail.
  split; [done|]. split.
  - intros Hge lock. apply lookup_ge_None in Hge.
    rewrite Hge in Hget, Hupd, Hrem.
    destruct (lock =? 0)%Z eqn:Hlock.
    + apply Z.eqb_eq in Hlock as ->.
      split; [intros buf; by rewrite Hget|].
      split; [intros v; by rewrite Hupd|]. by rewrite Hrem.
    + apply Z.eqb_neq in Hlock. destruct (Hfail lock Hlock) as (? & ? & ?).
      done.
  - intros Hlt lock Hlock. destruct (lookup_lt_is_Some_2 _ _ Hlt) as [x Hx].
    rewrite Hx in Hget, Hupd, Hrem.
    destruct Hrem as (l' & victim & Hrem & _).
    assert (forall buf,
      status (linkedlist_get lock (Some l) i (Some buf))
      = if (lock =? 0)%Z then LINKEDLIST_SUCCESS else lock) as Hg.
    { intros buf. destruct (lock =? 0)%Z eqn:Hb.
      - apply Z.eqb_eq in Hb as ->. by rewrite Hget.
      - apply Z.eqb_neq in Hb. by apply Hfail. }
    assert (forall v,
      status (linkedlist_update lock (Some l) i (Some v))
      = if (lock =? 0)%Z then LINKEDLIST_SUCCESS else lock) as Hu.
    { intros v. destruct (lock =? 0)%Z eqn:Hb.
      - apply Z.eqb_eq in Hb as ->. destruct (Hupd v) as (l'' & -> & _). done.
      - apply Z.eqb_neq in Hb. by apply Hfail. }
    assert (status (linkedlist_remove lock (Some l) i)
            = if (lock =? 0)%Z then LINKEDLIST_SUCCESS else lock) as Hr.
    { destruct (lock =? 0)%Z eqn:Hb.
      - apply Z.eqb_eq in Hb as ->. by rewrite Hrem.
      - apply Z.eqb_neq in Hb. by apply Hfail. }
    split.
    { intros [buf|].
      - rewrite Hg. by destruct (lock =? 0)%Z.
      - unfold linkedlist_get. by rewrite Hinit. }
    split.
    { intros [v|].
      - rewrite Hu. by destruct (lock =? 0)%Z.
      - unfold linkedlist_update. by rewrite Hinit. }
    split; [rewrite Hr; by destruct (lock =? 0)%Z|]. done.
Qed.

Lemma index_out_of_range_is_ERANGE_witness :
  linkedlist_initialized (Some two_int_list) = true
  /\ linkedlist_initialized (Some empty_int_list) = true
  /\ status (linkedlist_get 0 (Some two_int_list) 2 (Some zeroes)) = ERANGE
  /\ status (linkedlist_update 0 (Some two_int_list) 2 (Some int1234)) = ERANGE
  /\ status (linkedlist_remove 0 (Some two_int_list) 2) = ERANGE
  /\ status (linkedlist_remove 0 (Some empty_int_list) 0) = ERANGE
  /\ status (linkedlist_get 0 (Some two_int_list) 1 None) <> ERANGE
  /\ status (linkedlist_remove 0 (Some two_int_list) 1) = LINKEDLIST_SUCCESS.
Proof.
  assert (linkedlist_initialized (Some two_int_list) = true) as H2
    by reflexivity.
  assert (linkedlist_initialized (Some empty_int_list) = true) as H0
    by reflexivity.
  destruct (index_out_of_range_is_ERANGE two_int_list 2 H2)
    as (_ & Hout & _).
  destruct (index_out_of_range_is_ERANGE empty_int_list 0 H0)
    as (_ & Hempty & _).
  destruct (index_out_of_range_is_ERANGE two_int_list 1 H2)
    as (_ & _ & Hin).
  destruct (Hout ltac:(simpl; lia) 0%Z) as (Hg & Hu & Hr).
  destruct (Hempty ltac:(simpl; lia) 0%Z) as (_ & _ & Hr0).
  destruct (Hin ltac:(simpl; lia) 0%Z ltac:(discriminate))
    as (Hg1 & _ & _ & _ & _ & Hr1).
  repeat split; auto.
Defined.

(** C3.  On an initialized list, [linkedlist_remove] at a valid index [i]
    succeeds and takes that element out: the elements before [i] stay where
    they are and each element after it moves down by one.  A
    [linkedlist_get] at [i] right afterwards hands back the element that was
    at [i + 1], and when [i] was the last valid index that
    [linkedlist_get] returns [ERANGE]. *)
Theorem remove_shifts_following_down (l : LinkedList) (i : nat) :
  linkedlist_initialized (Some l) = true ->
  i < length (elements l) ->
  exists copy l',
    _copy l = Some copy
    /\ status (linkedlist_remove 0 (Some l) i) = LINKEDLIST_SUCCESS
    /\ list_after (linkedlist_remove 0 (Some l) i) = Some l'
    /\ elements l' = delete i (elements l)
    /\ length (elements l') = length (elements l) - 1
    /\ (forall j, j < i -> elements l' !! j = elements l !! j)
    /\ (forall j, i <= j -> elements l' !! j = elements l !! S j)
    /\ (forall x buf,
          elements l !! S i = Some x ->
          status (linkedlist_get 0 (Some l') i (Some buf)) = LINKEDLIST_SUCCESS
          /\ output (linkedlist_get 0 (Some l') i (Some buf))
             = Some (copy buf x (_item_size l)).2
          /\ output (linkedlist_get 0 (Some l') i (Some buf))
             = output (linkedlist_get 0 (Some l) (S i) (Some buf)))
    /\ (S i = length (elements l) ->
        forall buf,
          status (linkedlist_get 0 (Some l') i (Some buf)) = ERANGE).
Proof.
  intros Hinit Hlt. destruct (initialized_copy l Hinit) as (copy & Hcopy & _).
  pose proof (linkedlist_remove_spec l Hinit i) as Hrem.
  destruct (lookup_lt_is_Some_2 _ _ Hlt) as [y Hy]. rewrite Hy in Hrem.
  destruct Hrem as (l' & victim & Hrem & _ & Hel & Hsz & Hcp & Hde).
  exists copy, l'. rewrite Hrem. simpl.
  assert (linkedlist_initialized (Some l') = true) as Hinit'.
  { unfold linkedlist_initialized in *. by rewrite Hsz, Hcp. }
  assert (_copy l' = Some copy) as Hcopy' by congruence.
  assert (forall j, i <= j -> elements l' !! j = elements l !! S j) as Hshift.
  { intros j Hj. rewrite Hel. by apply list_lookup_delete_ge. }
  do 4 (split; [done|]).
  split; [rewrite Hel, length_delete; [lia | by eexists]|].
  split; [intros j Hj; rewrite Hel; by apply list_lookup_delete_lt|].
  split; [done|].
  split.
  - intros x buf Hx.
    rewrite (linkedlist_get_spec l' copy Hinit' Hcopy').
    rewrite (linkedlist_get_spec l copy Hinit Hcopy).
    rewrite Hshift, Hx, Hsz by lia. done.
  - intros Hlast buf.
    rewrite (linkedlist_get_spec l' copy Hinit' Hcopy').
    rewrite Hshift by lia.
    rewrite (lookup_ge_None_2 (elements l) (S i)) by lia. done.
Qed.

Lemma remove_shifts_following_down_witness :
  linkedlist_initialized (Some two_int_list) = true
  /\ 0 < length (elements two_int_list)
  /\ exists l',
       list_after (linkedlist_remove 0 (Some two_int_list) 0) = Some l'
       /\ elements l' = [int69]
       /\ output (linkedlist_get 0 (Some l') 0 (Some zeroes)) = Some int69.
Proof.
  split; [reflexivity|]. split; [simpl; lia|].
  destruct (remove_shifts_following_down two_int_list 0)
    as (copy & l' & Hcopy & _ & Hl' & Hel & _ & _ & _ & Hget & _);
    [reflexivity | simpl; lia |].
  exists l'. split; [exact Hl'|]. split; [exact Hel|].
  destruct (Hget int69 zeroes) as (_ & _ & ->); reflexivity.
Defined.

(** C4.  Whatever sequence of [linkedlist_add], [linkedlist_remove],
    [linkedlist_update] and [linkedlist_get] calls is applied to an empty
    initialized list, the chain then has exactly (number of successful adds)
    - (number of successful removes) nodes, and [linkedlist_length] returns
    success and writes that number to its buffer.  The counter of
    [linkedlist_length] is a [size_t]: the number written is exact for every
    chain of fewer than [2 ^ SIZE_WIDTH] nodes, that is, every chain that
    fits in the address space. *)
Theorem length_is_adds_minus_removes
    (calls : list Call) (l : LinkedList) (b : size_t) :
  linkedlist_initialized (Some l) = true ->
  _head l = None ->
  let final := (run calls (Some l)).1 in
  let log := (run calls (Some l)).2 in
  let n := successful_adds log - successful_removes log in
  successful_removes log <= successful_adds log
  /\ (exists l', final = Some l' /\ length (elements l') = n)
  /\ ((N.of_nat n < 2 ^ SIZE_WIDTH)%N ->
      status (linkedlist_length 0 final (Some b)) = LINKEDLIST_SUCCESS
      /\ output (linkedlist_length 0 final (Some b)) = Some (N.of_nat n)).
Proof.
  intros Hinit Hhead.
  destruct (run_cases calls l) as (l' & Hl' & Hcfg & Hlen).
  assert (length (elements l) = 0) as Hempty
    by (unfold elements; by rewrite Hhead).
  rewrite Hempty in Hlen. simpl.
  assert (length (elements l')
          = successful_adds (run calls (Some l)).2
            - successful_removes (run calls (Some l)).2) as Hn by lia.
  split; [lia|]. split; [by exists l'|].
  intros Hfits. rewrite Hl'.
  assert (linkedlist_initialized (Some l') = true) as Hinit'
    by by rewrite (same_configuration_initialized l l').
  rewrite (linkedlist_length_spec l' Hinit' b). simpl.
  rewrite Hn, N.mod_small by done. done.
Qed.

Lemma length_is_adds_minus_removes_witness :
  linkedlist_initialized (Some empty_int_list) = true
  /\ _head empty_int_list = None
  /\ successful_adds (run scenario (Some empty_int_list)).2 = 2
  /\ successful_removes (run scenario (Some empty_int_list)).2 = 1
  /\ output (linkedlist_length 0 (run scenario (Some empty_int_list)).1
               (Some 7%N))
     = Some 1%N.
Proof.
  split; [reflexivity|]. split; [reflexivity|].
  split; [reflexivity|]. split; [reflexivity|].
  destruct (length_is_adds_minus_removes scenario empty_int_list 7%N)
    as (_ & _ & Hlen); [reflexivity | reflexivity |].
  destruct Hlen as [_ Hout]; [vm_compute; reflexivity|].
  exact Hout.
Defined.

(** C5.  On an initialized list, [linkedlist_update] at a valid index [i]
    with a non-null value [v2] succeeds; between taking and releasing the
    lock it calls the dealloc hook, when one is set, on the element at [i]
    and then the copy hook from [v2] into that same buffer, and nothing
    else.  Only the element at [i] changes: the other elements, the length
    and the configuration of the list are as before.  A [linkedlist_get] at
    [i] right afterwards hands back the updated element through the copy
    hook; with a hook that copies bytes, as the default [memcpy] does, what
    it hands back is [v2]. *)
Theorem update_changes_only_that_element (l : LinkedList) (i : nat) (v2 : Buf) :
  linkedlist_initialized (Some l) = true ->
  i < length (elements l) ->
  exists copy old l',
    _copy l = Some copy
    /\ elements l !! i = Some old
    /\ status (linkedlist_update 0 (Some l) i (Some v2)) = LINKEDLIST_SUCCESS
    /\ list_after (linkedlist_update 0 (Some l) i (Some v2)) = Some l'
    /\ let n := _item_size l in
       let released := match _dealloc l with Some d => d old | None => old end in
       let written := (copy released v2 n).2 in
       events (linkedlist_update 0 (Some l) i (Some v2))
       = [ev_lock 0]
         ++ match _dealloc l with Some _ => [ev_dealloc old] | None => [] end
         ++ [ev_copy released v2 n; ev_unlock]
       /\ elements l' = <[i := written]> (elements l)
       /\ elements l' !! i = Some written
       /\ (forall j, j <> i -> elements l' !! j = elements l !! j)
       /\ length (elements l') = length (elements l)
       /\ same_configuration l l'
       /\ (forall buf,
             status (linkedlist_get 0 (Some l') i (Some buf))
             = LINKEDLIST_SUCCESS
             /\ output (linkedlist_get 0 (Some l') i (Some buf))
                = Some (copy buf written n).2)
       /\ (copies_bytes copy n ->
           length v2 = N.to_nat n -> length released = N.to_nat n ->
           written = v2
           /\ forall buf, length buf = N.to_nat n ->
                output (linkedlist_get 0 (Some l') i (Some buf)) = Some v2).
Proof.
  intros Hinit Hlt. destruct (initialized_copy l Hinit) as (copy & Hcopy & _).
  destruct (lookup_lt_is_Some_2 _ _ Hlt) as [old Hold].
  pose proof (linkedlist_update_spec l copy Hinit Hcopy i v2) as Hupd.
  rewrite Hold in Hupd. destruct Hupd as (l' & Hupd & Hel & Hsz & Hcp & Hde).
  exists copy, old, l'. rewrite Hupd. simpl.
  assert (linkedlist_initialized (Some l') = true) as Hinit'.
  { unfold linkedlist_initialized in *. by rewrite Hsz, Hcp. }
  assert (_copy l' = Some copy) as Hcopy' by congruence.
  set (released := match _dealloc l with Some d => d old | None => old end)
    in *.
  assert (elements l' !! i = Some (copy released v2 (_item_size l)).2) as Hi.
  { rewrite Hel. by apply list_lookup_insert_eq. }
  assert (forall buf,
    linkedlist_get 0 (Some l') i (Some buf)
    = mkOutcome LINKEDLIST_SUCCESS (Some l')
        (Some (copy buf (copy released v2 (_item_size l)).2 (_item_size l)).2)
        [ev_lock 0;
         ev_copy buf (copy released v2 (_item_size l)).2 (_item_size l);
         ev_unlock]) as Hget.
  { intros buf. rewrite (linkedlist_get_spec l' copy Hinit' Hcopy').
    by rewrite Hi, Hsz. }
  do 7 (split; [done|]).
  split; [intros j Hj; rewrite Hel; by apply list_lookup_insert_ne|].
  split; [by rewrite Hel, length_insert|].
  split; [done|].
  split; [intros buf; by rewrite Hget|].
  intros Hbytes Hv2 Hreleased.
  assert ((copy released v2 (_item_size l)).2 = v2) as Hwritten
    by by apply Hbytes.
  split; [done|].
  intros buf Hbuf. rewrite Hget. simpl. rewrite Hwritten. f_equal.
  by apply Hbytes.
Qed.

Lemma update_changes_only_that_element_witness :
  linkedlist_initialized (Some two_int_list) = true
  /\ 1 < length (elements two_int_list)
  /\ exists l',
       list_after (linkedlist_update 0 (Some two_int_list) 1 (Some int1234))
       = Some l'
       /\ elements l' = [int42; int1234]
       /\ output (linkedlist_get 0 (Some l') 1 (Some zeroes)) = Some int1234.
Proof.
  split; [reflexivity|]. split; [simpl; lia|].
  destruct (update_changes_only_that_element two_int_list 1 int1234)
    as (copy & old & l' & Hcopy & Hold & _ & Hl' & _ & Hel & _ & _ & _ & _
        & _ & Hbytes);
    [reflexivity | simpl; lia |].
  injection Hcopy as <-. injection Hold as <-.
  exists l'. split; [exact Hl'|]. split; [exact Hel|].
  destruct Hbytes as [_ Hget];
    [apply memcpy_copies_bytes | reflexivity | reflexivity |].
  apply Hget. reflexivity.
Defined.

(** C6.  A call that fails, for whatever reason, leaves the list struct
    behind the handle, and with it the chain, the element size and the
    hooks, exactly as it was.  A failing [linkedlist_add] has freed every
    block it allocated: it frees exactly as many nodes as it allocated and
    exactly as many buffers as it allocated, at most one of each, and when
    it got as far as the lock, the one buffer it frees is the copy it made,
    as the dealloc hook left it, after the one call of that hook, when it is
    set, on that copy.  A failing [linkedlist_remove] or
    [linkedlist_update] has called no hook and freed nothing; a failing
    [linkedlist_get] or [linkedlist_length] has left the caller's buffer
    alone. *)
Theorem failing_call_leaves_list_untouched :
  (forall mutex_init list item_size copy dealloc,
     status (linkedlist_initialize mutex_init list item_size copy dealloc)
     <> LINKEDLIST_SUCCESS ->
     list_after (linkedlist_initialize mutex_init list item_size copy dealloc)
     = list)
  /\ (forall env list value,
        status (linkedlist_add env list value) <> LINKEDLIST_SUCCESS ->
        list_after (linkedlist_add env list value) = list
        /\ live_blocks (events (linkedlist_add env list value)) = 0%Z
        /\ freed_items (events (linkedlist_add env list value))
           = allocated_items (events (linkedlist_add env list value))
        /\ length (freed_values (events (linkedlist_add env list value)))
           = length (allocated_values (events (linkedlist_add env list value)))
        /\ allocated_items (events (linkedlist_add env list value)) <= 1
        /\ length (allocated_values (events (linkedlist_add env list value)))
           <= 1
        /\ (forall l v copy fresh,
              list = Some l ->
              value = Some v ->
              linkedlist_initialized list = true ->
              _copy l = Some copy ->
              env_malloc_item env = true ->
              malloc (env_malloc_value env) (_item_size l) = Some fresh ->
              let made := (copy fresh v (_item_size l)).2 in
              allocated_items (events (linkedlist_add env list value)) = 1
              /\ allocated_values (events (linkedlist_add env list value))
                 = [_item_size l]
              /\ dealloc_calls (events (linkedlist_add env list value))
                 = match _dealloc l with Some _ => [made] | None => [] end
              /\ freed_values (events (linkedlist_add env list value))
                 = [released (_dealloc l) made]
              /\ freed_items (events (linkedlist_add env list value)) = 1)
        /\ (forall l v,
              list = Some l ->
              value = Some v ->
              linkedlist_initialized list = true ->
              env_malloc_item env = true ->
              malloc (env_malloc_value env) (_item_size l) = None ->
              allocated_items (events (linkedlist_add env list value)) = 1
              /\ allocated_values (events (linkedlist_add env list value)) = []
              /\ dealloc_calls (events (linkedlist_add env list value)) = []
              /\ freed_values (events (linkedlist_add env list value)) = []
              /\ freed_items (events (linkedlist_add env list value)) = 1))
  /\ (forall lock list index,
        status (linkedlist_remove lock list index) <> LINKEDLIST_SUCCESS ->
        list_after (linkedlist_remove lock list index) = list
        /\ Forall (fun e => touches_elements e = false)
             (events (linkedlist_remove lock list index)))
  /\ (forall lock list index value,
        status (linkedlist_update lock list index value)
        <> LINKEDLIST_SUCCESS ->
        list_after (linkedlist_update lock list index value) = list
        /\ Forall (fun e => touches_elements e = false)
             (events (linkedlist_update lock list index value)))
  /\ (forall lock list index buffer,
        status (linkedlist_get lock list index buffer) <> LINKEDLIST_SUCCESS ->
        list_after (linkedlist_get lock list index buffer) = list
        /\ output (linkedlist_get lock list index buffer) = buffer
        /\ Forall (fun e => touches_elements e = false)
             (events (linkedlist_get lock list index buffer)))
  /\ (forall lock list length_buffer,
        status (linkedlist_length lock list length_buffer)
        <> LINKEDLIST_SUCCESS ->
        list_after (linkedlist_length lock list length_buffer) = list
        /\ output (linkedlist_length lock list length_buffer) = length_buffer).
Proof.
  split; [|split; [|split; [|split; [|split]]]].
  - intros mutex_init list item_size copy dealloc.
    unfold linkedlist_initialize. destruct list as [l|]; [|done].
    destruct (item_size =? 0)%N; [done|].
    by destruct (mutex_init =? 0)%Z.
  - intros env list value. unfold linkedlist_add.
    destruct (linkedlist_initialized list); simpl.
    2:{ intros _. repeat split; try done;
          try (unfold allocated_items; simpl; lia);
          simplify_eq; congruence. }
    destruct list as [l|].
    2:{ intros _. repeat split; try done;
          try (unfold allocated_items; simpl; lia);
          simplify_eq; congruence. }
    destruct value as [v|].
    2:{ intros _. repeat split; try done;
          try (unfold allocated_items; simpl; lia);
          simplify_eq; congruence. }
    destruct (env_malloc_item env) eqn:Hitem; simpl.
    2:{ intros _. repeat split; try done;
          try (unfold allocated_items; simpl; lia);
          simplify_eq; congruence. }
    destruct (malloc (env_malloc_value env) (_item_size l)) as [fresh|] eqn:Hm.
    2:{ intros _. repeat split; try done;
          try (unfold allocated_items; simpl; lia);
          simplify_eq; congruence. }
    destruct (_copy l) as [copy|] eqn:Hcopy.
    2:{ intros _. repeat split; try done;
          try (unfold allocated_items; simpl; lia);
          simplify_eq; congruence. }
    destruct (env_lock env =? 0)%Z; simpl; [done|].
    intros _. split; [done|].
    destruct (_dealloc l) as [d|] eqn:Hd; simpl;
      (repeat split; try done; try (unfold allocated_items; simpl; lia);
       simplify_eq; try congruence; by rewrite ?Hd).
  - intros lock list index. unfold linkedlist_remove.
    destruct (linkedlist_initialized list); simpl; [|done].
    destruct list as [l|]; [|done].
    destruct (lock =? 0)%Z; simpl; [|by repeat constructor].
    destruct (_head l) as [h|] eqn:Hh.
    2:{ rewrite <- Hh, set_head_same. by repeat constructor. }
    destruct index as [|depth]; [done|].
    destruct (walk (Some h) depth) as [current|].
    2:{ rewrite <- Hh, set_head_same. by repeat constructor. }
    destruct (_next current); [done|].
    rewrite <- Hh, set_head_same. by repeat constructor.
  - intros lock list index value. unfold linkedlist_update.
    destruct (linkedlist_initialized list); simpl; [|done].
    destruct list as [l|]; [|done]. destruct value as [v|]; [|done].
    destruct (lock =? 0)%Z; simpl; [|by repeat constructor].
    destruct (walk (_head l) index); [|by repeat constructor].
    destruct (_head l); [|done]. by destruct (_copy l).
  - intros lock list index buffer. unfold linkedlist_get.
    destruct (linkedlist_initialized list); simpl; [|done].
    destruct list as [l|]; [|done]. destruct buffer as [buf|]; [|done].
    destruct (lock =? 0)%Z; simpl; [|by repeat constructor].
    destruct (walk (_head l) index); [|by repeat constructor].
    by destruct (_copy l).
  - intros lock list length_buffer. unfold linkedlist_length.
    destruct (linkedlist_initialized list); simpl; [|done].
    destruct list as [l|]; [|done]. destruct length_buffer; [|done].
    by destruct (lock =? 0)%Z.
Qed.

Lemma failing_call_leaves_list_untouched_witness :
  let lock_fails :=
    {| env_malloc_item := true;
       env_malloc_value := Some (fun _ => Byte.xff);
       env_lock := EINVAL |} in
  let no_buffer :=
    {| env_malloc_item := true; env_malloc_value := None; env_lock := 0%Z |} in
  let l := {| _head := _head two_int_list; _item_size := 4%N;
              _copy := Some memcpy; _dealloc := Some clearing_dealloc |} in
  status (linkedlist_add lock_fails (Some l) (Some int1234)) = EINVAL
  /\ list_after (linkedlist_add lock_fails (Some l) (Some int1234)) = Some l
  /\ live_blocks (events (linkedlist_add lock_fails (Some l) (Some int1234)))
     = 0%Z
  /\ allocated_values
       (events (linkedlist_add lock_fails (Some l) (Some int1234))) = [4%N]
  /\ dealloc_calls
       (events (linkedlist_add lock_fails (Some l) (Some int1234))) = [int1234]
  /\ freed_values
       (events (linkedlist_add lock_fails (Some l) (Some int1234))) = [zeroes]
  /\ freed_items
       (events (linkedlist_add lock_fails (Some l) (Some int1234))) = 1
  /\ status (linkedlist_add no_buffer (Some l) (Some int1234)) = ENOMEM
  /\ list_after (linkedlist_add no_buffer (Some l) (Some int1234)) = Some l
  /\ freed_values
       (events (linkedlist_add no_buffer (Some l) (Some int1234))) = []
  /\ freed_items
       (events (linkedlist_add no_buffer (Some l) (Some int1234))) = 1
  /\ status (linkedlist_update 0 (Some l) 2 (Some int1234)) = ERANGE
  /\ list_after (linkedlist_update 0 (Some l) 2 (Some int1234)) = Some l
  /\ status (linkedlist_remove 0 (Some l) 7) = ERANGE
  /\ list_after (linkedlist_remove 0 (Some l) 7) = Some l.
Proof.
  intros lock_fails no_buffer l.
  destruct failing_call_leaves_list_untouched
    as (_ & Hadd & Hrem & Hupd & _).
  destruct (Hadd lock_fails (Some l) (Some int1234))
    as (Ha1 & Ha2 & _ & _ & _ & _ & Hlock & _);
    [vm_compute; discriminate|].
  destruct (Hlock l int1234 memcpy (replicate 4 Byte.xff))
    as (_ & Hsizes & Hhook & Hfreed & Hnode); try reflexivity.
  destruct (Hadd no_buffer (Some l) (Some int1234))
    as (Hb1 & _ & _ & _ & _ & _ & _ & Hnomem);
    [vm_compute; discriminate|].
  destruct (Hnomem l int1234) as (_ & _ & _ & Hfreed' & Hnode');
    try reflexivity.
  destruct (Hupd 0%Z (Some l) 2 (Some int1234)) as [Hu _];
    [vm_compute; discriminate|].
  destruct (Hrem 0%Z (Some l) 7) as [Hr _]; [vm_compute; discriminate|].
  repeat split; try reflexivity; assumption.
Defined.

(** C7.  [linkedlist_add], [linkedlist_remove], [linkedlist_get],
    [linkedlist_update] and [linkedlist_length] return [EINVAL] for a null
    list handle and for a list that [linkedlist_destroy] was called on (its
    copy hook is null); [linkedlist_add] and [linkedlist_update] return
    [EINVAL] for a null value, [linkedlist_get] and [linkedlist_length] for a
    null buffer; [linkedlist_initialize] returns it for a null handle.  In
    each case the call returns before it has touched the mutex (or the
    allocator, or a hook).  [linkedlist_destroy], which returns no status,
    does nothing on a null handle. *)
Theorem invalid_arguments_rejected_before_lock :
  (forall list : option LinkedList,
     list = None \/ (exists before, list = (linkedlist_destroy before).1) ->
     (forall env value, rejected list tt (linkedlist_add env list value))
     /\ (forall lock index,
           rejected list tt (linkedlist_remove lock list index))
     /\ (forall lock index buffer,
           rejected list buffer (linkedlist_get lock list index buffer))
     /\ (forall lock index value,
           rejected list tt (linkedlist_update lock list index value))
     /\ (forall lock length_buffer,
           rejected list length_buffer
             (linkedlist_length lock list length_buffer)))
  /\ (forall env list, rejected list tt (linkedlist_add env list None))
  /\ (forall lock list index,
        rejected list tt (linkedlist_update lock list index None))
  /\ (forall lock list index,
        rejected list None (linkedlist_get lock list index None))
  /\ (forall lock list,
        rejected list None (linkedlist_length lock list None))
  /\ (forall mutex_init item_size copy dealloc,
        rejected None tt
          (linkedlist_initialize mutex_init None item_size copy dealloc))
  /\ linkedlist_destroy None = (None, []).
Proof.
  split; [|split; [|split; [|split; [|split; [|split]]]]].
  - intros list Hlist.
    assert (linkedlist_initialized list = false) as Hinit.
    { destruct Hlist as [->|[before ->]]; [done|].
      destruct before as [l|]; [|done]. simpl.
      by rewrite andb_false_r. }
    unfold linkedlist_add, linkedlist_remove, linkedlist_get,
      linkedlist_update, linkedlist_length.
    rewrite Hinit. done.
  - intros env list. unfold linkedlist_add.
    destruct (linkedlist_initialized list); [|done]. by destruct list.
  - intros lock list index. unfold linkedlist_update.
    destruct (linkedlist_initialized list); [|done]. by destruct list.
  - intros lock list index. unfold linkedlist_get.
    destruct (linkedlist_initialized list); [|done]. by destruct list.
  - intros lock list. unfold linkedlist_length.
    destruct (linkedlist_initialized list); [|done]. by destruct list.
  - done.
  - done.
Qed.

Lemma live_blocks_app t1 t2 :
  live_blocks (t1 ++ t2) = (live_blocks t1 + live_blocks t2)%Z.
Proof.
  induction t1 as [|e t1 IH]; [done|].
  destruct e as [| | | |[]|? []| | | |]; simpl; rewrite IH; lia.
Qed.

(** The loop of [linkedlist_destroy] frees the node and the buffer of every
    element. *)
Lemma destroy_items_live_blocks dealloc head :
  live_blocks (destroy_items dealloc head)
  = (- 2 * Z.of_nat (length (values_from head)))%Z.
Proof.
  induction head as [v|v n IH] using chain_ind.
  - by destruct dealloc.
  - simpl destroy_items. simpl length.
    destruct dealloc; simpl; rewrite IH; lia.
Qed.

(** C8.  One [linkedlist_destroy] frees the node and the buffer of every
    element and leaves the head, the copy hook and the dealloc hook null and
    the element size as it was.  After it, [linkedlist_add],
    [linkedlist_remove], [linkedlist_get], [linkedlist_update] and
    [linkedlist_length] are rejected with [EINVAL], and a second
    [linkedlist_destroy] frees nothing and leaves the same list struct as
    the first. *)
Theorem destroy_is_idempotent (l : LinkedList) :
  let after := (linkedlist_destroy (Some l)).1 in
  after = Some (destroyed l)
  /\ _head (destroyed l) = None
  /\ _copy (destroyed l) = None
  /\ _dealloc (destroyed l) = None
  /\ _item_size (destroyed l) = _item_size l
  /\ live_blocks (linkedlist_destroy (Some l)).2
     = (- 2 * Z.of_nat (length (elements l)))%Z
  /\ (forall env value, rejected after tt (linkedlist_add env after value))
  /\ (forall lock index,
        rejected after tt (linkedlist_remove lock after index))
  /\ (forall lock index buffer,
        rejected after buffer (linkedlist_get lock after index buffer))
  /\ (forall lock index value,
        rejected after tt (linkedlist_update lock after index value))
  /\ (forall lock length_buffer,
        rejected after length_buffer
          (linkedlist_length lock after length_buffer))
  /\ linkedlist_destroy after = (after, [ev_mutex_destroy]).
Proof.
  simpl. do 5 (split; [done|]).
  split.
  { unfold elements. destruct (_head l) as [h|]; [|done].
    rewrite live_blocks_app, destroy_items_live_blocks. simpl. lia. }
  unfold linkedlist_add, linkedlist_remove, linkedlist_get, linkedlist_update,
    linkedlist_length, linkedlist_initialized, destroyed. simpl.
  rewrite andb_false_r. simpl. done.
Qed.

(** C9.  The pointer a copy hook returns is never looked at.  With a hook
    that returns [NULL] on every call, [linkedlist_add] (both allocations
    and the lock succeeding), [linkedlist_get] and [linkedlist_update] (at a
    valid index, the lock acquired) still return success: the list gains or
    keeps an element, and the caller's buffer gets contents, that are
    whatever the hook left in its destination. *)
Theorem copy_hook_failure_is_ignored
    (l : LinkedList) (copy : linkedlist_copyfunction_t) :
  linkedlist_initialized (Some l) = true ->
  _copy l = Some copy ->
  (forall dest src n, (copy dest src n).1 = false) ->
  (forall env v fresh,
     env_malloc_item env = true ->
     malloc (env_malloc_value env) (_item_size l) = Some fresh ->
     env_lock env = 0%Z ->
     status (linkedlist_add env (Some l) (Some v)) = LINKEDLIST_SUCCESS
     /\ exists l',
          list_after (linkedlist_add env (Some l) (Some v)) = Some l'
          /\ elements l' = elements l ++ [(copy fresh v (_item_size l)).2])
  /\ (forall i x buf,
        elements l !! i = Some x ->
        status (linkedlist_get 0 (Some l) i (Some buf)) = LINKEDLIST_SUCCESS
        /\ output (linkedlist_get 0 (Some l) i (Some buf))
           = Some (copy buf x (_item_size l)).2)
  /\ (forall i x v,
        elements l !! i = Some x ->
        status (linkedlist_update 0 (Some l) i (Some v)) = LINKEDLIST_SUCCESS
        /\ exists l',
             list_after (linkedlist_update 0 (Some l) i (Some v)) = Some l'
             /\ elements l'
                = <[i := (copy match _dealloc l with
                                | Some d => d x
                                | None => x
                                end v (_item_size l)).2]> (elements l)).
Proof.
  intros Hinit Hcopy _. split; [|split].
  - intros env v fresh Hitem Hm Hlock.
    destruct (linkedlist_add_spec l copy Hinit Hcopy env v fresh Hitem Hm Hlock)
      as (l' & -> & Hel & _).
    split; [done|]. by exists l'.
  - intros i x buf Hx.
    rewrite (linkedlist_get_spec l copy Hinit Hcopy), Hx. done.
  - intros i x v Hx.
    pose proof (linkedlist_update_spec l copy Hinit Hcopy i v) as Hupd.
    rewrite Hx in Hupd. destruct Hupd as (l' & -> & Hel & _).
    split; [done|]. by exists l'.
Qed.

Lemma copy_hook_failure_is_ignored_witness :
  linkedlist_initialized (Some failing_copy_list) = true
  /\ _copy failing_copy_list = Some failing_copy
  /\ (forall dest src n, (failing_copy dest src n).1 = false)
  /\ status (linkedlist_add good_env (Some failing_copy_list) (Some int69))
     = LINKEDLIST_SUCCESS
  /\ status (linkedlist_get 0 (Some failing_copy_list) 0 (Some zeroes))
     = LINKEDLIST_SUCCESS
  /\ output (linkedlist_get 0 (Some failing_copy_list) 0 (Some zeroes))
     = Some zeroes
  /\ status (linkedlist_update 0 (Some failing_copy_list) 0 (Some int69))
     = LINKEDLIST_SUCCESS.
Proof.
  split; [reflexivity|]. split; [reflexivity|]. split; [reflexivity|].
  destruct (copy_hook_failure_is_ignored failing_copy_list failing_copy)
    as (Hadd & Hget & Hupd); [reflexivity | reflexivity | reflexivity |].
  destruct (Hadd good_env int69 (map (fun _ => Byte.xff) (seq 0 4)))
    as [Ha _]; [reflexivity | reflexivity | reflexivity |].
  destruct (Hget 0 int42 zeroes) as [Hg1 Hg2]; [reflexivity|].
  destruct (Hupd 0 int42 int69) as [Hu _]; [reflexivity|].
  repeat split; assumption.
Defined.

(** C10.  [linkedlist_add], [linkedlist_remove], [linkedlist_get],
    [linkedlist_update] and [linkedlist_length] never assign the element
    size, the copy hook or the dealloc hook: after any one call, and after
    any sequence of calls, successful or not, the three are as before, and a
    list that was initialized still is.  [linkedlist_initialize], the one
    other operation besides [linkedlist_destroy], assigns them, and also
    leaves an initialized list initialized. *)
Theorem calls_preserve_initialized (l : LinkedList) :
  (forall c,
     exists l',
       (perform c (Some l)).2 = Some l'
       /\ _item_size l' = _item_size l
       /\ _copy l' = _copy l
       /\ _dealloc l' = _dealloc l
       /\ linkedlist_initialized (Some l') = linkedlist_initialized (Some l))
  /\ (forall calls,
        exists l',
          (run calls (Some l)).1 = Some l'
          /\ _item_size l' = _item_size l
          /\ _copy l' = _copy l
          /\ _dealloc l' = _dealloc l
          /\ linkedlist_initialized (Some l')
             = linkedlist_initialized (Some l))
  /\ (forall mutex_init item_size copy dealloc,
        linkedlist_initialized (Some l) = true ->
        linkedlist_initialized
          (list_after
             (linkedlist_initialize mutex_init (Some l) item_size copy dealloc))
        = true).
Proof.
  split; [|split].
  - intros c. destruct (perform_cases c l) as (l' & Hl' & Hcfg & _).
    exists l'. split; [done|].
    pose proof (same_configuration_initialized l l' Hcfg).
    destruct Hcfg as (? & ? & ?). done.
  - intros calls. destruct (run_cases calls l) as (l' & Hl' & Hcfg & _).
    exists l'. split; [done|].
    pose proof (same_configuration_initialized l l' Hcfg).
    destruct Hcfg as (? & ? & ?). done.
  - intros mutex_init item_size copy dealloc Hinit.
    unfold linkedlist_initialize.
    destruct (item_size =? 0)%N eqn:Hsize; [done|].
    destruct (mutex_init =? 0)%Z; simpl; [|done]. by rewrite Hsize.
Qed.

(** * Further properties of the list *)

(** ** The chain implements a sequence *)

(** One call on an initialized list does to its elements what
    [sequence_step] does to a sequence. *)
Lemma perform_sequence_step l copy c :
  linkedlist_initialized (Some l) = true ->
  _copy l = Some copy ->
  exists l',
    perform c (Some l)
    = ((sequence_step (_item_size l) copy (_dealloc l) c (elements l)).1,
       Some l')
    /\ elements l'
       = (sequence_step (_item_size l) copy (_dealloc l) c (elements l)).2
    /\ same_configuration l l'.
Proof.
  intros Hinit Hcopy.
  destruct c as [env [v|]|lock index|lock index [buf|]|lock index [v|]
                |lock [b|]]; simpl.
  - destruct (env_malloc_item env) eqn:Hitem; simpl.
    2:{ exists l. unfold linkedlist_add. by rewrite Hinit, Hitem. }
    destruct (malloc (env_malloc_value env) (_item_size l)) as [fresh|] eqn:Hm.
    2:{ exists l. unfold linkedlist_add. by rewrite Hinit, Hitem, Hm. }
    destruct (env_lock env =? 0)%Z eqn:Hlock.
    + apply Z.eqb_eq in Hlock.
      destruct (linkedlist_add_spec l copy Hinit Hcopy env v fresh Hitem Hm
                  Hlock) as (l' & -> & Hel & Hcfg).
      by exists l'.
    + exists l. unfold linkedlist_add.
      by rewrite Hinit, Hitem, Hm, Hcopy, Hlock.
  - exists l. unfold linkedlist_add. by rewrite Hinit.
  - destruct (lock =? 0)%Z eqn:Hlock; simpl.
    2:{ exists l. unfold linkedlist_remove. by rewrite Hinit, Hlock. }
    apply Z.eqb_eq in Hlock as ->.
    pose proof (linkedlist_remove_spec l Hinit index) as Hrem.
    destruct (elements l !! index) as [x|].
    + destruct Hrem as (l' & victim & -> & _ & Hel & Hcfg). by exists l'.
    + rewrite Hrem. by exists l.
  - destruct (lock =? 0)%Z eqn:Hlock; simpl.
    2:{ exists l. unfold linkedlist_get. by rewrite Hinit, Hlock. }
    apply Z.eqb_eq in Hlock as ->.
    rewrite (linkedlist_get_spec l copy Hinit Hcopy).
    exists l. by destruct (elements l !! index).
  - exists l. unfold linkedlist_get. by rewrite Hinit.
  - destruct (lock =? 0)%Z eqn:Hlock; simpl.
    2:{ exists l. unfold linkedlist_update. by rewrite Hinit, Hlock. }
    apply Z.eqb_eq in Hlock as ->.
    pose proof (linkedlist_update_spec l copy Hinit Hcopy index v) as Hupd.
    destruct (elements l !! index) as [x|].
    + destruct Hupd as (l' & -> & Hel & Hcfg). by exists l'.
    + rewrite Hupd. by exists l.
  - exists l. unfold linkedlist_update. by rewrite Hinit.
  - destruct (lock =? 0)%Z eqn:Hlock; simpl.
    2:{ exists l. unfold linkedlist_length. by rewrite Hinit, Hlock. }
    apply Z.eqb_eq in Hlock as ->.
    rewrite (linkedlist_length_spec l Hinit). by exists l.
  - exists l. unfold linkedlist_length. by rewrite Hinit.
Qed.

(** X1.  A sequence of calls on an initialized list returns the statuses,
    and leaves the elements, that the same calls give on the plain sequence
    of its elements: [add] appends the copy of its value, [remove] deletes
    at the index, [update] replaces at the index, [get] and [length] leave
    the sequence alone; a null argument gives [EINVAL], a failed allocation
    [ENOMEM], a lock that fails its own status, an index past the end
    [ERANGE], in that order of precedence. *)
Theorem run_refines_sequence
    (calls : list Call) (l : LinkedList) (copy : linkedlist_copyfunction_t) :
  linkedlist_initialized (Some l) = true ->
  _copy l = Some copy ->
  exists l',
    (run calls (Some l)).1 = Some l'
    /\ elements l'
       = (sequence_run (_item_size l) copy (_dealloc l) calls (elements l)).1
    /\ (run calls (Some l)).2.*2
       = (sequence_run (_item_size l) copy (_dealloc l) calls (elements l)).2.
Proof.
  revert l. induction calls as [|c calls IH]; intros l Hinit Hcopy.
  - by exists l.
  - destruct (perform_sequence_step l copy c Hinit Hcopy)
      as (l1 & Hp & Hel & Hcfg).
    simpl. rewrite Hp.
    destruct (sequence_step (_item_size l) copy (_dealloc l) c (elements l))
      as [st xs] eqn:Hstep.
    simpl in Hel. subst xs.
    assert (linkedlist_initialized (Some l1) = true) as Hinit1
      by by rewrite (same_configuration_initialized l l1).
    destruct Hcfg as (Hsz & Hcp & Hde).
    destruct (IH l1 Hinit1 ltac:(congruence)) as (l' & Hl' & Hel' & Hst').
    rewrite Hsz, Hde in Hel', Hst'.
    destruct (run calls (Some l1)) as [final log].
    destruct (sequence_run (_item_size l) copy (_dealloc l) calls (elements l1))
      as [final' sts].
    cbn [fst snd] in *. exists l'. split; [done|]. split; [done|].
    rewrite fmap_cons. cbn [fst snd]. by rewrite Hst'.
Qed.

Lemma run_refines_sequence_witness :
  linkedlist_initialized (Some empty_int_list) = true
  /\ _copy empty_int_list = Some memcpy
  /\ exists l',
       (run scenario (Some empty_int_list)).1 = Some l'
       /\ elements l' = [int1234]
       /\ (run scenario (Some empty_int_list)).2.*2 = [0; 0; 0; 0; 0]%Z.
Proof.
  split; [reflexivity|]. split; [reflexivity|].
  destruct (run_refines_sequence scenario empty_int_list memcpy)
    as (l' & Hl' & Hel & Hst); [reflexivity | reflexivity |].
  exists l'. split; [exact Hl'|]. split; [exact Hel | exact Hst].
Defined.

(** ** The mutex *)

(** The mutex calls of a trace that is written out. *)
Ltac mutex_calls Hlock :=
  unfold lock_calls, unlock_calls; simpl; rewrite ?Hlock; simpl;
  repeat split; first [done | by left | by right].

(** X2.  Every operation, whatever its arguments and whatever the allocator
    and the mutex answer, locks the mutex at most once, unlocks it once when
    that lock had succeeded and not at all otherwise, never unlocks a mutex
    it does not hold, and returns with the mutex free;
    [linkedlist_destroy] never locks or unlocks. *)
Theorem operations_return_with_mutex_free :
  (forall env list value,
     let t := events (linkedlist_add env list value) in
     mutex_after false t = Some false
     /\ (lock_calls t = [] \/ lock_calls t = [env_lock env])
     /\ unlock_calls t
        = length (List.filter (fun st => st =? 0)%Z (lock_calls t)))
  /\ (forall lock list index,
        let t := events (linkedlist_remove lock list index) in
        mutex_after false t = Some false
        /\ (lock_calls t = [] \/ lock_calls t = [lock])
        /\ unlock_calls t
           = length (List.filter (fun st => st =? 0)%Z (lock_calls t)))
  /\ (forall lock list index buffer,
        let t := events (linkedlist_get lock list index buffer) in
        mutex_after false t = Some false
        /\ (lock_calls t = [] \/ lock_calls t = [lock])
        /\ unlock_calls t
           = length (List.filter (fun st => st =? 0)%Z (lock_calls t)))
  /\ (forall lock list index value,
        let t := events (linkedlist_update lock list index value) in
        mutex_after false t = Some false
        /\ (lock_calls t = [] \/ lock_calls t = [lock])
        /\ unlock_calls t
           = length (List.filter (fun st => st =? 0)%Z (lock_calls t)))
  /\ (forall lock list length_buffer,
        let t := events (linkedlist_length lock list length_buffer) in
        mutex_after false t = Some false
        /\ (lock_calls t = [] \/ lock_calls t = [lock])
        /\ unlock_calls t
           = length (List.filter (fun st => st =? 0)%Z (lock_calls t)))
  /\ (forall list,
        Forall (fun e => forall st, e <> ev_lock st /\ e <> ev_unlock)
          (linkedlist_destroy list).2
        /\ lock_calls (linkedlist_destroy list).2 = []
        /\ unlock_calls (linkedlist_destroy list).2 = 0).
Proof.
  split; [|split; [|split; [|split; [|split]]]].
  - intros env list value. unfold linkedlist_add.
    destruct (linkedlist_initialized list); simpl; [|mutex_calls I].
    destruct list as [l|]; [|mutex_calls I].
    destruct value as [v|]; [|mutex_calls I].
    destruct (env_malloc_item env); simpl; [|mutex_calls I].
    destruct (malloc (env_malloc_value env) (_item_size l)); [|mutex_calls I].
    destruct (_copy l); [|mutex_calls I].
    destruct (env_lock env =? 0)%Z eqn:Hlock; simpl; [mutex_calls Hlock|].
    destruct (_dealloc l); mutex_calls Hlock.
  - intros lock list index. unfold linkedlist_remove.
    destruct (linkedlist_initialized list); simpl; [|mutex_calls I].
    destruct list as [l|]; [|mutex_calls I].
    destruct (lock =? 0)%Z eqn:Hlock; simpl; [|mutex_calls Hlock].
    destruct (_head l) as [h|]; [|mutex_calls Hlock].
    destruct index as [|depth].
    { destruct (_dealloc l); mutex_calls Hlock. }
    destruct (walk (Some h) depth) as [current|]; [|mutex_calls Hlock].
    destruct (_next current); [|mutex_calls Hlock].
    destruct (_dealloc l); mutex_calls Hlock.
  - intros lock list index buffer. unfold linkedlist_get.
    destruct (linkedlist_initialized list); simpl; [|mutex_calls I].
    destruct list as [l|]; [|mutex_calls I].
    destruct buffer as [buf|]; [|mutex_calls I].
    destruct (lock =? 0)%Z eqn:Hlock; simpl; [|mutex_calls Hlock].
    destruct (walk (_head l) index); [|mutex_calls Hlock].
    destruct (_copy l); mutex_calls Hlock.
  - intros lock list index value. unfold linkedlist_update.
    destruct (linkedlist_initialized list); simpl; [|mutex_calls I].
    destruct list as [l|]; [|mutex_calls I].
    destruct value as [v|]; [|mutex_calls I].
    destruct (lock =? 0)%Z eqn:Hlock; simpl; [|mutex_calls Hlock].
    destruct (walk (_head l) index); [|mutex_calls Hlock].
    destruct (_head l); [|mutex_calls Hlock].
    destruct (_copy l); [|mutex_calls Hlock].
    destruct (_dealloc l); mutex_calls Hlock.
  - intros lock list length_buffer. unfold linkedlist_length.
    destruct (linkedlist_initialized list); simpl; [|mutex_calls I].
    destruct list as [l|]; [|mutex_calls I].
    destruct length_buffer; [|mutex_calls I].
    destruct (lock =? 0)%Z eqn:Hlock; mutex_calls Hlock.
  - intros [l|]; [|repeat split; (done || constructor)]. simpl.
    assert (Forall (fun e => forall st, e <> ev_lock st /\ e <> ev_unlock)
              (match _head l with
               | Some h => destroy_items (_dealloc l) h
               | None => []
               end ++ [ev_mutex_destroy])) as Hnone.
    { apply Forall_app. split; [|by repeat constructor].
      destruct (_head l) as [h|]; [|by constructor].
      induction h as [v|v n IH] using chain_ind; simpl.
      + destruct (_dealloc l); by repeat constructor.
      + apply Forall_app. split; [|done].
        destruct (_dealloc l); by repeat constructor. }
    split; [exact Hnone|].
    unfold lock_calls, unlock_calls.
    induction Hnone as [|e t He _ IH]; [done|].
    destruct IH as [IH1 IH2]. simpl.
    destruct e as [| st | | | | | | | |]; try done.
    + by destruct (He st) as [? _].
    + by destruct (He 0%Z) as [_ ?].
Qed.

(** X3.  [linkedlist_add], [linkedlist_remove] and [linkedlist_length] call
    no hook, allocate nothing and free nothing while they hold the mutex:
    [linkedlist_add] allocates and copies before it locks,
    [linkedlist_remove] releases the node after it has unlocked.
    [linkedlist_get] and [linkedlist_update] call their hooks, and nothing
    else, while they hold it; [linkedlist_update] allocates no block and
    frees neither a buffer nor a node. *)
Theorem hooks_and_the_mutex :
  (forall env list value,
     held_events false (events (linkedlist_add env list value)) = [])
  /\ (forall lock list index,
        held_events false (events (linkedlist_remove lock list index)) = [])
  /\ (forall lock list length_buffer,
        held_events false (events (linkedlist_length lock list length_buffer))
        = [])
  /\ (forall lock list index buffer,
        let t := events (linkedlist_get lock list index buffer) in
        held_events false t = filter (fun e => is_hook_call e = true) t
        /\ dealloc_calls t = [])
  /\ (forall lock list index value,
        let t := events (linkedlist_update lock list index value) in
        held_events false t = filter (fun e => is_hook_call e = true) t
        /\ live_blocks t = 0%Z /\ freed_values t = []
        /\ freed_items t = 0
        /\ allocated_items t = 0 /\ allocated_values t = []).
Proof.
  split; [|split; [|split; [|split]]].
  - intros env list value. unfold linkedlist_add.
    destruct (linkedlist_initialized list); simpl; [|done].
    destruct list as [l|]; [|done]. destruct value as [v|]; [|done].
    destruct (env_malloc_item env); simpl; [|done].
    destruct (malloc (env_malloc_value env) (_item_size l)); [|done].
    destruct (_copy l); [|done].
    destruct (env_lock env =? 0)%Z eqn:Hlock; simpl; rewrite ?Hlock; [done|].
    by destruct (_dealloc l).
  - intros lock list index. unfold linkedlist_remove.
    destruct (linkedlist_initialized list); simpl; [|done].
    destruct list as [l|]; [|done].
    destruct (lock =? 0)%Z eqn:Hlock; simpl; [|by rewrite ?Hlock].
    destruct (_head l) as [h|]; [|by simpl; rewrite ?Hlock].
    destruct index as [|depth].
    { simpl. rewrite ?Hlock. by destruct (_dealloc l). }
    destruct (walk (Some h) depth) as [current|]; [|by simpl; rewrite ?Hlock].
    destruct (_next current); simpl; rewrite ?Hlock; [|done].
    by destruct (_dealloc l).
  - intros lock list length_buffer. unfold linkedlist_length.
    destruct (linkedlist_initialized list); simpl; [|done].
    destruct list as [l|]; [|done]. destruct length_buffer; [|done].
    destruct (lock =? 0)%Z eqn:Hlock; simpl; by rewrite ?Hlock.
  - intros lock list index buffer. unfold linkedlist_get.
    destruct (linkedlist_initialized list); simpl; [|done].
    destruct list as [l|]; [|done]. destruct buffer as [buf|]; [|done].
    destruct (lock =? 0)%Z eqn:Hlock; simpl; [|by rewrite ?Hlock].
    destruct (walk (_head l) index); [|by simpl; rewrite ?Hlock].
    destruct (_copy l); simpl; [by rewrite ?Hlock | done].
  - intros lock list index value. unfold linkedlist_update.
    destruct (linkedlist_initialized list); simpl; [|done].
    destruct list as [l|]; [|done]. destruct value as [v|]; [|done].
    destruct (lock =? 0)%Z eqn:Hlock; simpl; [|by rewrite ?Hlock].
    destruct (walk (_head l) index); [|by simpl; rewrite ?Hlock].
    destruct (_head l); [|done]. destruct (_copy l); [|done].
    simpl. rewrite ?Hlock. by destruct (_dealloc l).
Qed.

(** ** Allocation *)

Lemma live_blocks_release_item dealloc item :
  live_blocks (release_item dealloc item) = (-2)%Z.
Proof. by destruct dealloc. Qed.

(** One call allocates two blocks for the element it adds, frees two for
    the element it removes, and otherwise frees what it allocates. *)
Lemma call_live_blocks c l :
  exists l',
    (perform c (Some l)).2 = Some l'
    /\ live_blocks (call_events c (Some l))
       = (2 * (Z.of_nat (length (elements l'))
               - Z.of_nat (length (elements l))))%Z.
Proof.
  destruct (linkedlist_initialized (Some l)) eqn:Hinit.
  2:{ exists l.
      destruct c; simpl;
        unfold linkedlist_add, linkedlist_remove, linkedlist_get,
          linkedlist_update, linkedlist_length;
        rewrite Hinit; simpl; split; (done || lia). }
  destruct (initialized_copy l Hinit) as (copy & Hcopy & _).
  destruct c as [env [v|]|lock index|lock index [buf|]|lock index [v|]
                |lock [b|]]; simpl.
  - destruct (env_malloc_item env) eqn:Hitem.
    2:{ exists l. unfold linkedlist_add. rewrite Hinit, Hitem. simpl.
        split; [done|lia]. }
    destruct (malloc (env_malloc_value env) (_item_size l)) as [fresh|] eqn:Hm.
    2:{ exists l. unfold linkedlist_add. rewrite Hinit, Hitem, Hm. simpl.
        split; [done|lia]. }
    destruct (env_lock env =? 0)%Z eqn:Hlock.
    + apply Z.eqb_eq in Hlock.
      destruct (linkedlist_add_spec l copy Hinit Hcopy env v fresh Hitem Hm
                  Hlock) as (l' & -> & Hel & _).
      exists l'. simpl. rewrite Hel, length_app. simpl. split; [done|lia].
    + exists l. unfold linkedlist_add.
      rewrite Hinit, Hitem, Hm, Hcopy, Hlock. simpl.
      split; [done|]. destruct (_dealloc l); simpl; lia.
  - exists l. unfold linkedlist_add. rewrite Hinit. simpl. split; [done|lia].
  - destruct (lock =? 0)%Z eqn:Hlock.
    2:{ exists l. unfold linkedlist_remove. rewrite Hinit, Hlock. simpl.
        split; [done|lia]. }
    apply Z.eqb_eq in Hlock as ->.
    pose proof (linkedlist_remove_spec l Hinit index) as Hrem.
    destruct (elements l !! index) as [x|] eqn:Hx.
    + destruct Hrem as (l' & victim & -> & _ & Hel & _).
      exists l'. simpl. rewrite live_blocks_release_item, Hel.
      rewrite length_delete by by eexists.
      apply lookup_lt_Some in Hx. split; [done|lia].
    + rewrite Hrem. exists l. simpl. split; [done|lia].
  - rewrite linkedlist_get_list_after. exists l. split; [done|].
    destruct (lock =? 0)%Z eqn:Hlock.
    + apply Z.eqb_eq in Hlock as ->.
      rewrite (linkedlist_get_spec l copy Hinit Hcopy).
      destruct (elements l !! index); simpl; lia.
    + unfold linkedlist_get. rewrite Hinit, Hlock. simpl. lia.
  - rewrite linkedlist_get_list_after. exists l. split; [done|].
    unfold linkedlist_get. rewrite Hinit. simpl. lia.
  - destruct (lock =? 0)%Z eqn:Hlock.
    2:{ exists l. unfold linkedlist_update. rewrite Hinit, Hlock. simpl.
        split; [done|lia]. }
    apply Z.eqb_eq in Hlock as ->.
    pose proof (linkedlist_update_spec l copy Hinit Hcopy index v) as Hupd.
    destruct (elements l !! index) as [x|] eqn:Hx.
    + destruct Hupd as (l' & -> & Hel & _).
      exists l'. simpl. rewrite Hel, length_insert. split; [done|].
      destruct (_dealloc l); simpl; lia.
    + rewrite Hupd. exists l. simpl. split; [done|lia].
  - exists l. unfold linkedlist_update. rewrite Hinit. simpl. split; [done|lia].
  - rewrite linkedlist_length_list_after. exists l. split; [done|].
    unfold linkedlist_length. rewrite Hinit. simpl.
    destruct (lock =? 0)%Z; simpl; lia.
  - rewrite linkedlist_length_list_after. exists l. split; [done|].
    unfold linkedlist_length. rewrite Hinit. simpl. lia.
Qed.

Lemma dealloc_calls_app t1 t2 :
  dealloc_calls (t1 ++ t2) = dealloc_calls t1 ++ dealloc_calls t2.
Proof. apply omap_app. Qed.

Lemma freed_values_app t1 t2 :
  freed_values (t1 ++ t2) = freed_values t1 ++ freed_values t2.
Proof. apply omap_app. Qed.

Lemma freed_items_app t1 t2 :
  freed_items (t1 ++ t2) = freed_items t1 + freed_items t2.
Proof. unfold freed_items. by rewrite omap_app, length_app. Qed.

Lemma destroy_items_releases dealloc head :
  dealloc_calls (destroy_items dealloc head)
  = match dealloc with Some _ => values_from head | None => [] end
  /\ freed_values (destroy_items dealloc head)
     = released dealloc <$> values_from head
  /\ freed_items (destroy_items dealloc head) = length (values_from head).
Proof.
  induction head as [v|v n (IH1 & IH2 & IH3)] using chain_ind.
  - by destruct dealloc.
  - simpl destroy_items.
    rewrite dealloc_calls_app, freed_values_app, freed_items_app, IH1, IH2, IH3.
    by destruct dealloc.
Qed.

Lemma allocated_items_app t1 t2 :
  allocated_items (t1 ++ t2) = allocated_items t1 + allocated_items t2.
Proof. unfold allocated_items. by rewrite omap_app, length_app. Qed.

Lemma allocated_values_app t1 t2 :
  allocated_values (t1 ++ t2) = allocated_values t1 ++ allocated_values t2.
Proof. apply omap_app. Qed.

Lemma destroy_items_allocates dealloc head :
  allocated_items (destroy_items dealloc head) = 0
  /\ allocated_values (destroy_items dealloc head) = [].
Proof.
  induction head as [v|v n [IH1 IH2]] using chain_ind.
  - by destruct dealloc.
  - simpl destroy_items.
    rewrite allocated_items_app, allocated_values_app, IH1, IH2.
    by destruct dealloc.
Qed.

(** The blocks of a trace that is written out, nodes and buffers apart. *)
Ltac count_blocks :=
  unfold allocated_items, allocated_values, freed_items, freed_values;
  simpl; lia.

(** One call allocates one node and one buffer for the element it adds,
    frees one node and one buffer for the element it removes, and otherwise
    frees the nodes and the buffers it allocates. *)
Lemma call_blocks c l :
  exists l',
    (perform c (Some l)).2 = Some l'
    /\ allocated_items (call_events c (Some l)) + length (elements l)
       = freed_items (call_events c (Some l)) + length (elements l')
    /\ length (allocated_values (call_events c (Some l)))
       + length (elements l)
       = length (freed_values (call_events c (Some l)))
         + length (elements l').
Proof.
  destruct (linkedlist_initialized (Some l)) eqn:Hinit.
  2:{ exists l.
      destruct c; simpl;
        unfold linkedlist_add, linkedlist_remove, linkedlist_get,
          linkedlist_update, linkedlist_length;
        rewrite Hinit; simpl; split; (done || lia). }
  destruct (initialized_copy l Hinit) as (copy & Hcopy & _).
  destruct c as [env [v|]|lock index|lock index [buf|]|lock index [v|]
                |lock [b|]]; simpl.
  - destruct (env_malloc_item env) eqn:Hitem.
    2:{ exists l. unfold linkedlist_add. rewrite Hinit, Hitem. simpl.
        split; [done|count_blocks]. }
    destruct (malloc (env_malloc_value env) (_item_size l)) as [fresh|] eqn:Hm.
    2:{ exists l. unfold linkedlist_add. rewrite Hinit, Hitem, Hm. simpl.
        split; [done|count_blocks]. }
    destruct (env_lock env =? 0)%Z eqn:Hlock.
    + apply Z.eqb_eq in Hlock.
      destruct (linkedlist_add_spec l copy Hinit Hcopy env v fresh Hitem Hm
                  Hlock) as (l' & -> & Hel & _).
      exists l'. simpl. rewrite Hel, length_app. simpl.
      split; [done|count_blocks].
    + exists l. unfold linkedlist_add.
      rewrite Hinit, Hitem, Hm, Hcopy, Hlock. simpl.
      split; [done|]. destruct (_dealloc l); count_blocks.
  - exists l. unfold linkedlist_add. rewrite Hinit. simpl.
    split; [done|count_blocks].
  - destruct (lock =? 0)%Z eqn:Hlock.
    2:{ exists l. unfold linkedlist_remove. rewrite Hinit, Hlock. simpl.
        split; [done|count_blocks]. }
    apply Z.eqb_eq in Hlock as ->.
    pose proof (linkedlist_remove_spec l Hinit index) as Hrem.
    destruct (elements l !! index) as [x|] eqn:Hx.
    + destruct Hrem as (l' & victim & -> & _ & Hel & _).
      exists l'. simpl. rewrite Hel.
      rewrite length_delete by by eexists.
      apply lookup_lt_Some in Hx. split; [done|].
      destruct (_dealloc l); count_blocks.
    + rewrite Hrem. exists l. simpl. split; [done|count_blocks].
  - rewrite linkedlist_get_list_after. exists l. split; [done|].
    destruct (lock =? 0)%Z eqn:Hlock.
    + apply Z.eqb_eq in Hlock as ->.
      rewrite (linkedlist_get_spec l copy Hinit Hcopy).
      destruct (elements l !! index); count_blocks.
    + unfold linkedlist_get. rewrite Hinit, Hlock. count_blocks.
  - rewrite linkedlist_get_list_after. exists l. split; [done|].
    unfold linkedlist_get. rewrite Hinit. count_blocks.
  - destruct (lock =? 0)%Z eqn:Hlock.
    2:{ exists l. unfold linkedlist_update. rewrite Hinit, Hlock. simpl.
        split; [done|count_blocks]. }
    apply Z.eqb_eq in Hlock as ->.
    pose proof (linkedlist_update_spec l copy Hinit Hcopy index v) as Hupd.
    destruct (elements l !! index) as [x|] eqn:Hx.
    + destruct Hupd as (l' & -> & Hel & _).
      exists l'. simpl. rewrite Hel, length_insert. split; [done|].
      destruct (_dealloc l); count_blocks.
    + rewrite Hupd. exists l. simpl. split; [done|count_blocks].
  - exists l. unfold linkedlist_update. rewrite Hinit. simpl.
    split; [done|count_blocks].
  - rewrite linkedlist_length_list_after. exists l. split; [done|].
    unfold linkedlist_length. rewrite Hinit. simpl.
    destruct (lock =? 0)%Z; count_blocks.
  - rewrite linkedlist_length_list_after. exists l. split; [done|].
    unfold linkedlist_length. rewrite Hinit. count_blocks.
Qed.

(** The buffers that one call frees are those of [step_freed]. *)
Lemma call_freed l copy c :
  linkedlist_initialized (Some l) = true ->
  _copy l = Some copy ->
  freed_values (call_events c (Some l))
  = step_freed (_item_size l) copy (_dealloc l) c (elements l).
Proof.
  intros Hinit Hcopy.
  destruct c as [env [v|]|lock index|lock index [buf|]|lock index [v|]
                |lock [b|]]; simpl.
  - destruct (env_malloc_item env) eqn:Hitem; simpl.
    2:{ unfold linkedlist_add. by rewrite Hinit, Hitem. }
    destruct (malloc (env_malloc_value env) (_item_size l)) as [fresh|] eqn:Hm.
    2:{ unfold linkedlist_add. by rewrite Hinit, Hitem, Hm. }
    unfold linkedlist_add. rewrite Hinit, Hitem, Hm, Hcopy. simpl.
    destruct (env_lock env =? 0)%Z; simpl; [done|].
    by destruct (_dealloc l).
  - unfold linkedlist_add. by rewrite Hinit.
  - destruct (lock =? 0)%Z eqn:Hlock; simpl.
    2:{ unfold linkedlist_remove. by rewrite Hinit, Hlock. }
    apply Z.eqb_eq in Hlock as ->.
    pose proof (linkedlist_remove_spec l Hinit index) as Hrem.
    destruct (elements l !! index) as [x|].
    + destruct Hrem as (l' & victim & -> & <- & _). simpl.
      by destruct (_dealloc l).
    + by rewrite Hrem.
  - destruct (lock =? 0)%Z eqn:Hlock.
    + apply Z.eqb_eq in Hlock as ->.
      rewrite (linkedlist_get_spec l copy Hinit Hcopy).
      by destruct (elements l !! index).
    + unfold linkedlist_get. by rewrite Hinit, Hlock.
  - unfold linkedlist_get. by rewrite Hinit.
  - destruct (lock =? 0)%Z eqn:Hlock.
    2:{ unfold linkedlist_update. by rewrite Hinit, Hlock. }
    apply Z.eqb_eq in Hlock as ->.
    pose proof (linkedlist_update_spec l copy Hinit Hcopy index v) as Hupd.
    destruct (elements l !! index) as [x|].
    + destruct Hupd as (l' & -> & _). simpl. by destruct (_dealloc l).
    + by rewrite Hupd.
  - unfold linkedlist_update. by rewrite Hinit.
  - unfold linkedlist_length. rewrite Hinit. simpl.
    by destruct (lock =? 0)%Z.
  - unfold linkedlist_length. by rewrite Hinit.
Qed.

(** The buffers that a sequence of calls frees are those of [run_freed]. *)
Lemma run_events_freed calls l copy :
  linkedlist_initialized (Some l) = true ->
  _copy l = Some copy ->
  freed_values (run_events calls (Some l))
  = run_freed (_item_size l) copy (_dealloc l) calls (elements l).
Proof.
  revert l. induction calls as [|c calls IH]; intros l Hinit Hcopy; [done|].
  simpl. rewrite freed_values_app, (call_freed l copy c Hinit Hcopy).
  destruct (perform_sequence_step l copy c Hinit Hcopy)
    as (l1 & -> & Hel & Hcfg).
  simpl. f_equal.
  pose proof (same_configuration_initialized l l1 Hcfg) as Hinit1.
  rewrite Hinit in Hinit1.
  destruct Hcfg as (Hsize & Hcopy1 & Hdealloc).
  rewrite (IH l1 Hinit1) by congruence.
  by rewrite Hsize, Hdealloc, Hel.
Qed.

(** X4.  After any sequence of calls, the blocks allocated and not yet freed
    are the node and the buffer of each element that the calls have added to
    the list, nodes and buffers counted apart: the sequence has allocated as
    many nodes more than it has freed as the list has grown by, and likewise
    buffers.  The buffers it has freed are, in order, the elements that a
    [linkedlist_remove] took out and the copies of the [linkedlist_add]s
    that failed at the lock, each as the dealloc hook left it.  A
    [linkedlist_destroy] after the sequence allocates nothing and frees what
    the list holds, one node per element and the buffer of each element, so
    that of a list that started empty every node and every buffer that was
    allocated has been freed. *)
Theorem no_block_is_leaked (calls : list Call) (l : LinkedList) :
  exists l',
    (run calls (Some l)).1 = Some l'
    /\ live_blocks (run_events calls (Some l))
       = (2 * (Z.of_nat (length (elements l'))
               - Z.of_nat (length (elements l))))%Z
    /\ live_blocks (run_events calls (Some l)
                    ++ (linkedlist_destroy (Some l')).2)
       = (- 2 * Z.of_nat (length (elements l)))%Z
    /\ (_head l = None ->
        live_blocks (run_events calls (Some l)
                     ++ (linkedlist_destroy (Some l')).2) = 0%Z)
    /\ let t := run_events calls (Some l) in
       let d := (linkedlist_destroy (Some l')).2 in
       allocated_items t + length (elements l)
       = freed_items t + length (elements l')
       /\ length (allocated_values t) + length (elements l)
          = length (freed_values t) + length (elements l')
       /\ (forall copy,
             linkedlist_initialized (Some l) = true ->
             _copy l = Some copy ->
             freed_values t
             = run_freed (_item_size l) copy (_dealloc l) calls (elements l))
       /\ allocated_items d = 0
       /\ allocated_values d = []
       /\ freed_items d = length (elements l')
       /\ freed_values d = released (_dealloc l') <$> elements l'
       /\ allocated_items (t ++ d) + length (elements l) = freed_items (t ++ d)
       /\ length (allocated_values (t ++ d)) + length (elements l)
          = length (freed_values (t ++ d))
       /\ (_head l = None ->
           allocated_items (t ++ d) = freed_items (t ++ d)
           /\ length (allocated_values (t ++ d))
              = length (freed_values (t ++ d))).
Proof.
  assert (exists l',
    (run calls (Some l)).1 = Some l'
    /\ live_blocks (run_events calls (Some l))
       = (2 * (Z.of_nat (length (elements l'))
               - Z.of_nat (length (elements l))))%Z
    /\ allocated_items (run_events calls (Some l)) + length (elements l)
       = freed_items (run_events calls (Some l)) + length (elements l')
    /\ length (allocated_values (run_events calls (Some l)))
       + length (elements l)
       = length (freed_values (run_events calls (Some l)))
         + length (elements l'))
    as (l' & Hl' & Hlive & Hitems & Hvalues).
  { revert l. induction calls as [|c calls IH]; intros l.
    - exists l. simpl. split; [done|]. split; [lia|count_blocks].
    - destruct (call_live_blocks c l) as (l1 & Hl1 & Hlive1).
      destruct (call_blocks c l) as (l1' & Hl1' & Hitems1 & Hvalues1).
      rewrite Hl1 in Hl1'. injection Hl1' as <-.
      destruct (IH l1) as (l' & Hl' & Hlive' & Hitems' & Hvalues').
      exists l'. simpl.
      destruct (perform c (Some l)) as [st list1]. simpl in Hl1. subst list1.
      destruct (run calls (Some l1)) as [final log]. simpl in *.
      split; [done|].
      rewrite live_blocks_app, allocated_items_app, freed_items_app,
        allocated_values_app, freed_values_app, !length_app, Hlive1, Hlive'.
      lia. }
  exists l'. split; [done|]. split; [done|].
  assert (live_blocks (linkedlist_destroy (Some l')).2
          = (- 2 * Z.of_nat (length (elements l')))%Z) as Hdestroy.
  { unfold elements. simpl. rewrite live_blocks_app. simpl.
    destruct (_head l') as [h|]; [|done].
    rewrite destroy_items_live_blocks. simpl. lia. }
  assert (allocated_items (linkedlist_destroy (Some l')).2 = 0
          /\ allocated_values (linkedlist_destroy (Some l')).2 = []
          /\ freed_items (linkedlist_destroy (Some l')).2
             = length (elements l')
          /\ freed_values (linkedlist_destroy (Some l')).2
             = released (_dealloc l') <$> elements l')
    as (Hd1 & Hd2 & Hd3 & Hd4).
  { unfold elements. simpl.
    rewrite allocated_items_app, allocated_values_app, freed_items_app,
      freed_values_app.
    destruct (_head l') as [h|]; [|done]. simpl.
    destruct (destroy_items_allocates (_dealloc l') h) as (-> & ->).
    destruct (destroy_items_releases (_dealloc l') h) as (_ & -> & ->).
    repeat split; [count_blocks | by rewrite app_nil_r]. }
  split; [rewrite live_blocks_app, Hlive, Hdestroy; lia|].
  split.
  { intros Hhead. rewrite live_blocks_app, Hlive, Hdestroy.
    unfold elements at 2. rewrite Hhead. simpl. lia. }
  cbv zeta.
  rewrite allocated_items_app, freed_items_app, allocated_values_app,
    freed_values_app, !length_app, Hd1, Hd2, Hd3, Hd4, length_fmap.
  split; [done|]. split; [done|].
  split; [intros copy Hinit Hcopy; by apply run_events_freed|].
  do 6 (split; [done || (simpl; lia)|]).
  intros Hhead. unfold elements in Hitems at 1, Hvalues at 1.
  rewrite Hhead in Hitems, Hvalues. simpl in *. lia.
Qed.

Lemma no_block_is_leaked_witness :
  exists l',
    (run scenario (Some empty_int_list)).1 = Some l'
    /\ allocated_items (run_events scenario (Some empty_int_list)
                        ++ (linkedlist_destroy (Some l')).2)
       = freed_items (run_events scenario (Some empty_int_list)
                      ++ (linkedlist_destroy (Some l')).2)
    /\ length (allocated_values (run_events scenario (Some empty_int_list)
                                 ++ (linkedlist_destroy (Some l')).2))
       = length (freed_values (run_events scenario (Some empty_int_list)
                               ++ (linkedlist_destroy (Some l')).2))
    /\ freed_values (run_events scenario (Some empty_int_list))
       = run_freed 4%N memcpy None scenario [].
Proof.
  destruct (no_block_is_leaked scenario empty_int_list)
    as (l' & Hl' & _ & _ & _ & _ & _ & Hfreed & _ & _ & _ & _ & _ & _ & Hnone).
  exists l'. split; [exact Hl'|].
  destruct Hnone as [Hitems Hvalues]; [reflexivity|].
  split; [exact Hitems|]. split; [exact Hvalues|].
  apply (Hfreed memcpy); reflexivity.
Defined.

(** ** Releasing elements *)

(** X5.  [linkedlist_destroy] hands every element of the list to the
    dealloc hook exactly once, from the head to the tail, when a hook is set
    and to none otherwise; it frees the buffer of every element, as the hook
    left it, and one node per element; the last thing it does is destroy the
    mutex. *)
Theorem destroy_releases_every_element (l : LinkedList) :
  let t := (linkedlist_destroy (Some l)).2 in
  dealloc_calls t
  = match _dealloc l with Some _ => elements l | None => [] end
  /\ freed_values t = released (_dealloc l) <$> elements l
  /\ freed_items t = length (elements l)
  /\ last t = Some ev_mutex_destroy.
Proof.
  simpl. rewrite dealloc_calls_app, freed_values_app, freed_items_app.
  rewrite last_snoc. unfold elements.
  destruct (_head l) as [h|]; simpl.
  - destruct (destroy_items_releases (_dealloc l) h) as (-> & -> & ->).
    rewrite !app_nil_r. split; [done|]. split; [done|].
    split; [unfold freed_items; simpl; lia | done].
  - by destruct (_dealloc l).
Qed.

(** X6.  The element that a successful [linkedlist_remove] takes out of the
    list is the one thing it releases: it is handed to the dealloc hook,
    when one is set, and its buffer and its node are freed.  The copy that a
    [linkedlist_add] made before it failed to take the lock is released the
    same way. *)
Theorem unlinked_element_is_released
    (l : LinkedList) (copy : linkedlist_copyfunction_t) :
  linkedlist_initialized (Some l) = true ->
  _copy l = Some copy ->
  (forall i x,
     elements l !! i = Some x ->
     let t := events (linkedlist_remove 0 (Some l) i) in
     dealloc_calls t = match _dealloc l with Some _ => [x] | None => [] end
     /\ freed_values t = [released (_dealloc l) x]
     /\ freed_items t = 1)
  /\ (forall env v fresh,
        env_malloc_item env = true ->
        malloc (env_malloc_value env) (_item_size l) = Some fresh ->
        env_lock env <> 0%Z ->
        let t := events (linkedlist_add env (Some l) (Some v)) in
        let made := (copy fresh v (_item_size l)).2 in
        dealloc_calls t
        = match _dealloc l with Some _ => [made] | None => [] end
        /\ freed_values t = [released (_dealloc l) made]
        /\ freed_items t = 1).
Proof.
  intros Hinit Hcopy. split.
  - intros i x Hx. pose proof (linkedlist_remove_spec l Hinit i) as Hrem.
    rewrite Hx in Hrem. destruct Hrem as (l' & victim & -> & <- & _).
    simpl. by destruct (_dealloc l).
  - intros env v fresh Hitem Hm Hlock. apply Z.eqb_neq in Hlock.
    unfold linkedlist_add. rewrite Hinit, Hitem, Hm, Hcopy, Hlock. simpl.
    by destruct (_dealloc l).
Qed.

Lemma unlinked_element_is_released_witness :
  let l := {| _head := _head two_int_list; _item_size := 4%N;
              _copy := Some memcpy; _dealloc := Some clearing_dealloc |} in
  linkedlist_initialized (Some l) = true
  /\ _copy l = Some memcpy
  /\ dealloc_calls (events (linkedlist_remove 0 (Some l) 1)) = [int69]
  /\ freed_values (events (linkedlist_remove 0 (Some l) 1)) = [zeroes].
Proof.
  intros l. split; [reflexivity|]. split; [reflexivity|].
  destruct (unlinked_element_is_released l memcpy) as [Hrem _];
    [reflexivity | reflexivity |].
  destruct (Hrem 1 int69) as (Hd & Hf & _); [reflexivity|].
  split; [exact Hd | exact Hf].
Defined.

(** ** Adding and removing *)

(** A chain is determined by its elements. *)
Lemma values_from_inj head1 head2 :
  values_from head1 = values_from head2 -> head1 = head2.
Proof.
  revert head2. induction head1 as [v|v n IH] using chain_ind;
    intros [v2 [n2|]]; simpl.
  - rewrite (values_from_unfold n2). done.
  - by intros [= ->].
  - intros [= -> H]. by rewrite (IH n2 H).
  - rewrite (values_from_unfold n). done.
Qed.

Lemma values_inj head1 head2 : values head1 = values head2 -> head1 = head2.
Proof.
  destruct head1 as [h1|], head2 as [h2|]; simpl.
  - intros H. by rewrite (values_from_inj h1 h2 H).
  - rewrite (values_from_unfold h1). done.
  - rewrite (values_from_unfold h2). done.
  - done.
Qed.

(** X7.  A [linkedlist_remove] of the last index undoes a successful
    [linkedlist_add]: it succeeds, it releases the copy that the add had
    made, and the list struct and its chain are again what they were before
    the add. *)
Theorem remove_last_undoes_add (env : Env) (l : LinkedList) (v : Buf) :
  linkedlist_initialized (Some l) = true ->
  status (linkedlist_add env (Some l) (Some v)) = LINKEDLIST_SUCCESS ->
  let added := list_after (linkedlist_add env (Some l) (Some v)) in
  let r := linkedlist_remove 0 added (length (elements l)) in
  status r = LINKEDLIST_SUCCESS
  /\ list_after r = Some l
  /\ exists copy fresh,
       _copy l = Some copy
       /\ malloc (env_malloc_value env) (_item_size l) = Some fresh
       /\ freed_values (events r)
          = [released (_dealloc l) (copy fresh v (_item_size l)).2].
Proof.
  intros Hinit Hok.
  destruct (linkedlist_add_success_inv _ _ _ Hok)
    as (l0 & v0 & fresh & [= <-] & [= <-] & _ & Hitem & Hm & Hlock).
  destruct (initialized_copy l Hinit) as (copy & Hcopy & _).
  destruct (linkedlist_add_spec l copy Hinit Hcopy env v fresh Hitem Hm Hlock)
    as (l' & -> & Hel & Hsz & Hcp & Hde).
  simpl.
  assert (linkedlist_initialized (Some l') = true) as Hinit'.
  { unfold linkedlist_initialized in *. by rewrite Hsz, Hcp. }
  pose proof (linkedlist_remove_spec l' Hinit' (length (elements l))) as Hrem.
  rewrite Hel, list_lookup_middle in Hrem by done.
  destruct Hrem as (l'' & victim & -> & Hv & Hel'' & Hsz'' & Hcp'' & Hde'').
  simpl. split; [done|]. split.
  - f_equal. rewrite delete_middle, app_nil_r in Hel''.
    apply values_inj in Hel''.
    destruct l, l''. simpl in *. congruence.
  - exists copy, fresh. split; [done|]. split; [done|].
    rewrite Hde. unfold release_item. rewrite Hv. by destruct (_dealloc l).
Qed.

Lemma remove_last_undoes_add_witness :
  linkedlist_initialized (Some two_int_list) = true
  /\ status (linkedlist_add good_env (Some two_int_list) (Some int1234))
     = LINKEDLIST_SUCCESS
  /\ list_after
       (linkedlist_remove 0
          (list_after (linkedlist_add good_env (Some two_int_list)
                         (Some int1234))) 2)
     = Some two_int_list.
Proof.
  split; [reflexivity|]. split; [reflexivity|].
  destruct (remove_last_undoes_add good_env two_int_list int1234)
    as (_ & Hl & _); [reflexivity | reflexivity |].
  exact Hl.
Defined.

(** ** Initializing *)

(** X8.  [linkedlist_initialize] succeeds exactly when the handle is not
    null, the element size is not zero and the mutex could be set up; with a
    null handle or a zero size it returns [EINVAL] before it touches the
    mutex.  The list it sets up does not depend on what the struct held
    before: it is initialized and empty, so that [linkedlist_length] writes
    0 and every index is out of range, it has the element size and the
    dealloc hook that were given, and the copy hook that was given or
    [memcpy]. *)
Theorem initialize_sets_up_an_empty_list
    (mutex_init : Z) (list : option LinkedList) (item_size : size_t)
    (copy : option linkedlist_copyfunction_t)
    (dealloc : option linkedlist_deallocfunction_t) :
  let r := linkedlist_initialize mutex_init list item_size copy dealloc in
  (status r = LINKEDLIST_SUCCESS
   <-> list <> None /\ item_size <> 0%N /\ mutex_init = 0%Z)
  /\ (list = None \/ item_size = 0%N -> status r = EINVAL /\ events r = [])
  /\ (status r = LINKEDLIST_SUCCESS ->
      list_after r
      = Some {| _head := None;
                _item_size := item_size;
                _copy := Some (match copy with Some c => c | None => memcpy end);
                _dealloc := dealloc |}
      /\ linkedlist_initialized (list_after r) = true
      /\ (forall b,
            output (linkedlist_length 0 (list_after r) (Some b)) = Some 0%N)
      /\ (forall i buf v,
            status (linkedlist_get 0 (list_after r) i (Some buf)) = ERANGE
            /\ status (linkedlist_update 0 (list_after r) i (Some v)) = ERANGE
            /\ status (linkedlist_remove 0 (list_after r) i) = ERANGE)).
Proof.
  simpl. unfold linkedlist_initialize.
  destruct list as [l|].
  2:{ split; [split; [done | by intros ([] & _)]|]. split; done. }
  destruct (item_size =? 0)%N eqn:Hsize.
  { apply N.eqb_eq in Hsize.
    split; [split; [done | by intros (_ & [] & _)]|]. split; done. }
  apply N.eqb_neq in Hsize as Hne.
  destruct (mutex_init =? 0)%Z eqn:Hmutex; simpl.
  - apply Z.eqb_eq in Hmutex.
    split; [done|]. split; [by intros [|]|]. intros _.
    split; [done|].
    unfold linkedlist_length, linkedlist_get, linkedlist_update,
      linkedlist_remove, linkedlist_initialized.
    simpl. rewrite Hsize. simpl.
    split; [done|]. split; [done|]. intros i buf v. by destruct i.
  - apply Z.eqb_neq in Hmutex.
    split; [split; [done | by intros (_ & _ & ?)]|].
    split; [by intros [|]|]. done.
Qed.

(** ** The default copy hook *)

(** X9.  With [memcpy] as its copy hook, the list stores the first
    [_item_size] bytes of the value it is given, and [linkedlist_get] at the
    index of the element just added writes these bytes over the first
    [_item_size] bytes of the caller's buffer and leaves the rest of the
    buffer as it was. *)
Theorem memcpy_round_trip (env : Env) (l : LinkedList) (v buf : Buf) :
  linkedlist_initialized (Some l) = true ->
  _copy l = Some memcpy ->
  status (linkedlist_add env (Some l) (Some v)) = LINKEDLIST_SUCCESS ->
  let n := N.to_nat (_item_size l) in
  let added := list_after (linkedlist_add env (Some l) (Some v)) in
  (exists l', added = Some l' /\ elements l' = elements l ++ [take n v])
  /\ status (linkedlist_get 0 added (length (elements l)) (Some buf))
     = LINKEDLIST_SUCCESS
  /\ output (linkedlist_get 0 added (length (elements l)) (Some buf))
     = Some (take n v ++ drop n buf).
Proof.
  intros Hinit Hcopy Hok.
  destruct (linkedlist_add_success_inv _ _ _ Hok)
    as (l0 & v0 & fresh & [= <-] & [= <-] & _ & Hitem & Hm & Hlock).
  destruct (linkedlist_add_spec l memcpy Hinit Hcopy env v fresh Hitem Hm Hlock)
    as (l' & -> & Hel & Hsz & Hcp & Hde).
  simpl.
  assert ((memcpy fresh v (_item_size l)).2 = take (N.to_nat (_item_size l)) v)
    as Hstored.
  { unfold memcpy. simpl. rewrite drop_ge, app_nil_r; [done|].
    by rewrite (malloc_length _ _ _ Hm). }
  rewrite Hstored in Hel.
  assert (linkedlist_initialized (Some l') = true) as Hinit'.
  { unfold linkedlist_initialized in *. by rewrite Hsz, Hcp. }
  rewrite (linkedlist_get_spec l' memcpy Hinit' ltac:(congruence)).
  rewrite Hel, list_lookup_middle by done. simpl.
  split; [by exists l'|]. split; [done|].
  rewrite Hsz, take_take, Nat.min_id. done.
Qed.

Lemma memcpy_round_trip_witness :
  linkedlist_initialized (Some two_int_list) = true
  /\ _copy two_int_list = Some memcpy
  /\ status (linkedlist_add good_env (Some two_int_list)
               (Some (int1234 ++ int42)))
     = LINKEDLIST_SUCCESS
  /\ output (linkedlist_get 0
               (list_after (linkedlist_add good_env (Some two_int_list)
                              (Some (int1234 ++ int42))))
               2 (Some (zeroes ++ int69)))
     = Some (int1234 ++ int69).
Proof.
  split; [reflexivity|]. split; [reflexivity|]. split; [reflexivity|].
  destruct (memcpy_round_trip good_env two_int_list
              (int1234 ++ int42) (zeroes ++ int69))
    as (_ & _ & Hout); [reflexivity | reflexivity | reflexivity |].
  exact Hout.
Defined.

(** One call keeps the elements at the size of the list, when the hooks keep
    the size of the buffers they work on. *)
Lemma sequence_step_sized n copy dealloc c xs :
  (forall dest src,
     length dest = N.to_nat n -> N.to_nat n <= length src ->
     length (copy dest src n).2 = N.to_nat n) ->
  (forall d x, dealloc = Some d -> length (d x) = length x) ->
  value_fits n c ->
  Forall (fun x : Buf => length x = N.to_nat n) xs ->
  Forall (fun x : Buf => length x = N.to_nat n)
    (sequence_step n copy dealloc c xs).2.
Proof.
  intros Hcopy Hdealloc Hfits Hxs.
  destruct c as [env [v|]|lock index|lock index [buf|]|lock index [v|]
                |lock [b|]]; simpl; try done.
  - destruct (env_malloc_item env); simpl; [|done].
    destruct (malloc (env_malloc_value env) n) as [fresh|] eqn:Hm; [|done].
    destruct (env_lock env =? 0)%Z; simpl; [|done].
    apply Forall_app. split; [done|]. constructor; [|done].
    apply Hcopy; [by eapply malloc_length | done].
  - destruct (lock =? 0)%Z; simpl; [|done].
    destruct (xs !! index); simpl; [|done]. by apply Forall_delete.
  - destruct (lock =? 0)%Z; simpl; [|done]. by destruct (xs !! index).
  - destruct (lock =? 0)%Z; simpl; [|done].
    destruct (xs !! index) as [x|] eqn:Hx; simpl; [|done].
    apply Forall_insert; [done|].
    pose proof (Forall_lookup_1 _ _ _ _ Hxs Hx) as Hlen. simpl in Hlen.
    apply Hcopy; [|done].
    destruct dealloc as [d|]; [|done]. by rewrite (Hdealloc d x).
  - by destruct (lock =? 0)%Z.
Qed.

(** [memcpy] fills a buffer of the element size from a value of at least
    that size, and the buffer keeps its size. *)
Lemma memcpy_keeps_size n dest src :
  length dest = N.to_nat n -> N.to_nat n <= length src ->
  length (memcpy dest src n).2 = N.to_nat n.
Proof.
  intros Hdest Hsrc. unfold memcpy. simpl.
  rewrite length_app, length_take, length_drop. lia.
Qed.

(** X10.  When the hooks of an initialized list keep the size of the buffer
    they work on (as [memcpy] and the clearing dealloc hook of the tests
    do), and every value passed to [linkedlist_add] and [linkedlist_update]
    has at least the element size, then after any sequence of calls every
    element has exactly the element size, given that it had before. *)
Theorem element_size_is_kept
    (calls : list Call) (l : LinkedList) (copy : linkedlist_copyfunction_t) :
  linkedlist_initialized (Some l) = true ->
  _copy l = Some copy ->
  (forall dest src,
     length dest = N.to_nat (_item_size l) ->
     N.to_nat (_item_size l) <= length src ->
     length (copy dest src (_item_size l)).2 = N.to_nat (_item_size l)) ->
  (forall d x, _dealloc l = Some d -> length (d x) = length x) ->
  Forall (value_fits (_item_size l)) calls ->
  well_sized l ->
  exists l', (run calls (Some l)).1 = Some l' /\ well_sized l'.
Proof.
  revert l. induction calls as [|c calls IH];
    intros l Hinit Hcopy Hkeep Hdealloc Hfit Hsized.
  - by exists l.
  - apply Forall_cons in Hfit as [Hc Hfit].
    destruct (perform_sequence_step l copy c Hinit Hcopy)
      as (l1 & Hp & Hel & Hcfg).
    assert (linkedlist_initialized (Some l1) = true) as Hinit1
      by by rewrite (same_configuration_initialized l l1).
    destruct Hcfg as (Hsz & Hcp & Hde).
    assert (well_sized l1) as Hsized1.
    { unfold well_sized. rewrite Hel, Hsz.
      by apply sequence_step_sized. }
    destruct (IH l1 Hinit1 ltac:(congruence)) as (l' & Hl' & Hsized');
      [by rewrite Hsz | by rewrite Hde | by rewrite Hsz | done |].
    exists l'. simpl. rewrite Hp.
    destruct (run calls (Some l1)) as [final log]. done.
Qed.

Lemma element_size_is_kept_witness :
  let l := {| _head := _head two_int_list; _item_size := 4%N;
              _copy := Some memcpy;
              _dealloc := Some clearing_dealloc |} in
  linkedlist_initialized (Some l) = true
  /\ Forall (value_fits 4%N) scenario
  /\ well_sized l
  /\ exists l', (run scenario (Some l)).1 = Some l' /\ well_sized l'.
Proof.
  intros l. split; [reflexivity|].
  assert (Forall (value_fits 4%N) scenario) as Hfit
    by (repeat constructor; simpl; lia).
  assert (well_sized l) as Hsized by (repeat constructor).
  split; [exact Hfit|]. split; [exact Hsized|].
  apply (element_size_is_kept scenario l memcpy);
    [reflexivity | reflexivity | apply memcpy_keeps_size | | exact Hfit
    | exact Hsized].
  intros d x [= <-]. apply length_map.
Defined.

(** * The mutex wrappers *)

(** One native object: it is live once it is allocated, and none is left
    once it is freed. *)
Lemma one_object_live (p : N) : p ∈ ({[p]} ∪ ∅ : gset N).
Proof. apply elem_of_union_l. by apply elem_of_singleton. Qed.

Lemma no_object_live (p : N) : p ∉ (∅ : gset N).
Proof. apply not_elem_of_empty. Qed.

Lemma one_object_freed (p : N) : ({[p]} ∪ ∅) ∖ {[p]} = (∅ : gset N).
Proof.
  apply set_eq. intros x.
  rewrite elem_of_difference, elem_of_union, elem_of_singleton.
  split; [by intros [[|] ?] | by intros ?%elem_of_empty].
Qed.

(** X11.  The life of a mutex of [pthread-mutex.c].  A successful
    [linkedlist_mutex_initialize] leaves a handle that is not null;
    [linkedlist_mutex_lock] and [linkedlist_mutex_unlock] on it return what
    the native call returns; [linkedlist_mutex_destroy] leaves the handle
    null.  On a null argument, a null handle or a destroyed mutex,
    [linkedlist_mutex_lock] and [linkedlist_mutex_unlock] return [EINVAL]
    without a native call and a further [linkedlist_mutex_destroy] does
    nothing.  When [malloc] fails, [linkedlist_mutex_initialize] returns
    [ENOMEM] and leaves the handle null.  From initialize to destroy, the
    block of the mutex is allocated once, used while allocated and freed
    once. *)
Theorem pthread_mutex_lifecycle (p : N) (old : linkedlist_mutex_t) :
  let r := PthreadMutex.linkedlist_mutex_initialize (Some p) 0 (Some old) in
  let d := PthreadMutex.linkedlist_mutex_destroy (mx_handle r) in
  mx_status r = LINKEDLIST_MUTEX_SUCCESS
  /\ mx_handle r = Some (Some p)
  /\ (forall native,
        mx_status (PthreadMutex.linkedlist_mutex_lock native (mx_handle r))
        = native
        /\ mx_status (PthreadMutex.linkedlist_mutex_unlock native (mx_handle r))
           = native
        /\ mx_handle (PthreadMutex.linkedlist_mutex_lock native (mx_handle r))
           = mx_handle r
        /\ mx_handle (PthreadMutex.linkedlist_mutex_unlock native (mx_handle r))
           = mx_handle r)
  /\ d.1 = Some None
  /\ (forall lock,
        lock = None \/ lock = Some None \/ lock = d.1 ->
        (forall native,
           PthreadMutex.linkedlist_mutex_lock native lock
           = mkMutexOutcome EINVAL lock []
           /\ PthreadMutex.linkedlist_mutex_unlock native lock
              = mkMutexOutcome EINVAL lock [])
        /\ PthreadMutex.linkedlist_mutex_destroy lock = (lock, []))
  /\ (forall native,
        PthreadMutex.linkedlist_mutex_initialize None native (Some old)
        = mkMutexOutcome ENOMEM (Some None) [mx_malloc None]
        /\ mx_status
             (PthreadMutex.linkedlist_mutex_initialize (Some p) native None)
           = EINVAL)
  /\ (forall locked unlocked,
        objects_after ∅
          (mx_events r
           ++ mx_events
                (PthreadMutex.linkedlist_mutex_lock locked (mx_handle r))
           ++ mx_events
                (PthreadMutex.linkedlist_mutex_unlock unlocked (mx_handle r))
           ++ d.2)
        = Some ∅).
Proof.
  simpl. split; [done|]. split; [done|]. split.
  { intros native. destruct (native =? 0)%Z eqn:H; simpl; [|done].
    by apply Z.eqb_eq in H as ->. }
  split; [done|]. split.
  { by intros lock [->|[->| ->]]. }
  split; [done|].
  intros locked unlocked.
  destruct (locked =? 0)%Z, (unlocked =? 0)%Z; simpl;
    rewrite !decide_True by apply one_object_live;
    by rewrite one_object_freed.
Qed.

(** X12.  When [pthread_mutex_init] fails, [linkedlist_mutex_initialize] of
    [pthread-mutex.c] frees the block it had allocated and returns the
    status, but the handle keeps the address of that block: a
    [linkedlist_mutex_lock] afterwards is not rejected and hands the freed
    block to [pthread_mutex_lock], and a [linkedlist_mutex_destroy] frees
    the block a second time. *)
Theorem pthread_failed_init_keeps_freed_handle
    (p : N) (native : Z) (old : linkedlist_mutex_t) :
  native <> 0%Z ->
  let r := PthreadMutex.linkedlist_mutex_initialize (Some p) native (Some old) in
  mx_status r = native
  /\ mx_handle r = Some (Some p)
  /\ objects_after ∅ (mx_events r) = Some ∅
  /\ (forall st,
        mx_events (PthreadMutex.linkedlist_mutex_lock st (mx_handle r))
        = [mx_pthread_mutex_lock p st]
        /\ objects_after ∅
             (mx_events r
              ++ mx_events
                   (PthreadMutex.linkedlist_mutex_lock st (mx_handle r)))
           = None)
  /\ (PthreadMutex.linkedlist_mutex_destroy (mx_handle r)).2
     = [mx_pthread_mutex_destroy p; mx_free p]
  /\ objects_after ∅
       (mx_events r ++ (PthreadMutex.linkedlist_mutex_destroy (mx_handle r)).2)
     = None.
Proof.
  intros Hnative. apply Z.eqb_neq in Hnative as Hb. simpl.
  unfold PthreadMutex.linkedlist_mutex_initialize. rewrite Hb. simpl.
  rewrite !decide_True by apply one_object_live. rewrite one_object_freed.
  split; [done|]. split; [done|]. split; [done|]. split.
  - intros st. split; [by destruct (st =? 0)%Z|].
    destruct (st =? 0)%Z; simpl;
      rewrite ?decide_True by apply one_object_live;
      rewrite ?one_object_freed;
      by rewrite decide_False by apply no_object_live.
  - split; [done|]. simpl.
    rewrite ?decide_True by apply one_object_live.
    rewrite ?one_object_freed.
    by rewrite decide_False by apply no_object_live.
Qed.

Lemma pthread_failed_init_keeps_freed_handle_witness :
  EINVAL <> 0%Z
  /\ mx_handle (PthreadMutex.linkedlist_mutex_initialize (Some 64%N) EINVAL
                  (Some None))
     = Some (Some 64%N)
  /\ (PthreadMutex.linkedlist_mutex_destroy (Some (Some 64%N))).2
     = [mx_pthread_mutex_destroy 64; mx_free 64].
Proof.
  split; [discriminate|].
  destruct (pthread_failed_init_keeps_freed_handle 64 EINVAL None)
    as (_ & Hhandle & _ & _ & Hdestroy & _); [discriminate|].
  split; [exact Hhandle|]. rewrite Hhandle in Hdestroy. exact Hdestroy.
Defined.

(** X13.  The life of a mutex of [win32-mutex.c].  A successful
    [linkedlist_mutex_initialize] leaves the handle that [CreateMutex]
    returned; when [CreateMutex] fails it returns [ENOMEM] and leaves the
    handle null.  [linkedlist_mutex_lock] succeeds exactly when
    [WaitForSingleObject] returns [WAIT_OBJECT_0] and otherwise returns
    the wait status; [linkedlist_mutex_unlock] returns [EINVAL] exactly when
    [ReleaseMutex] returns 0.  [linkedlist_mutex_destroy] closes the handle
    and leaves it null.  On a null argument, a null handle or a destroyed
    mutex, lock and unlock return [EINVAL] without a native call and a
    further destroy does nothing. *)
Theorem win32_mutex_lifecycle (h : N) (old : linkedlist_mutex_t) :
  let r := Win32Mutex.linkedlist_mutex_initialize (Some h) (Some old) in
  let d := Win32Mutex.linkedlist_mutex_destroy (mx_handle r) in
  mx_status r = LINKEDLIST_MUTEX_SUCCESS
  /\ mx_handle r = Some (Some h)
  /\ Win32Mutex.linkedlist_mutex_initialize None (Some old)
     = mkMutexOutcome ENOMEM (Some None) [mx_CreateMutex None]
  /\ mx_status (Win32Mutex.linkedlist_mutex_initialize (Some h) None) = EINVAL
  /\ (forall native,
        let locked := Win32Mutex.linkedlist_mutex_lock native (mx_handle r) in
        let unlocked :=
          Win32Mutex.linkedlist_mutex_unlock native (mx_handle r) in
        (mx_status locked = LINKEDLIST_MUTEX_SUCCESS <-> native = WAIT_OBJECT_0)
        /\ mx_status locked = native
        /\ (mx_status unlocked = EINVAL <-> native = 0%Z)
        /\ (mx_status unlocked = LINKEDLIST_MUTEX_SUCCESS <-> native <> 0%Z)
        /\ mx_handle locked = mx_handle r
        /\ mx_handle unlocked = mx_handle r)
  /\ d = (Some None, [mx_CloseHandle h])
  /\ (forall lock,
        lock = None \/ lock = Some None \/ lock = d.1 ->
        (forall native,
           Win32Mutex.linkedlist_mutex_lock native lock
           = mkMutexOutcome EINVAL lock []
           /\ Win32Mutex.linkedlist_mutex_unlock native lock
              = mkMutexOutcome EINVAL lock [])
        /\ Win32Mutex.linkedlist_mutex_destroy lock = (lock, []))
  /\ (forall waited released,
        objects_after ∅
          (mx_events r
           ++ mx_events
                (Win32Mutex.linkedlist_mutex_lock waited (mx_handle r))
           ++ mx_events
                (Win32Mutex.linkedlist_mutex_unlock released (mx_handle r))
           ++ d.2)
        = Some ∅).
Proof.
  simpl. do 4 (split; [done|]). split.
  { intros native. unfold WAIT_OBJECT_0.
    destruct (native =? 0)%Z eqn:H; simpl.
    - apply Z.eqb_eq in H as ->. done.
    - apply Z.eqb_neq in H. done. }
  split; [done|]. split.
  { by intros lock [->|[->| ->]]. }
  intros waited released. unfold WAIT_OBJECT_0.
  destruct (waited =? 0)%Z, (released =? 0)%Z; simpl;
    rewrite !decide_True by apply one_object_live;
    by rewrite one_object_freed.
Qed.

(** * The hooks for [ByteBuffer] *)

Lemma bytes_of_empty heap b : bb_length b = 0%N -> bytes_of heap b = [].
Proof.
  intros Hzero. unfold bytes_of. rewrite Hzero.
  destruct (bb_data b) as [p|]; [|done]. by destruct (heap !! p).
Qed.

(** A valid [ByteBuffer] is copied, when [malloc] does not fail, into
    a block at the address that [malloc] returned. *)
Lemma bytebuffer_copy_valid heap d s to n :
  valid_bytebuffer heap s ->
  exists r,
    bytebuffer_copy (Some to) heap (Some d) (Some s) n = Some r
    /\ hk_returned r = true
    /\ hk_struct r
       = Some (mkByteBuffer (bb_length s)
                 (if (0 <? bb_length s)%N then Some to else None))
    /\ hk_heap r
       = if (0 <? bb_length s)%N
         then <[to := bytes_of heap s]> heap
         else heap.
Proof.
  intros [Hzero|(from & block & Hdata & Hblock & Hlen)];
    unfold bytebuffer_copy, bytes_of.
  - rewrite Hzero. simpl. by eexists.
  - destruct (0 <? bb_length s)%N; [|by eexists].
    rewrite Hdata, Hblock.
    apply Nat.ltb_ge in Hlen. rewrite Hlen. by eexists.
Qed.

(** X14.  [bytebuffer_copy] makes a deep copy.  For a source that holds no
    data, or whose data is a block of at least [length] bytes, and a fresh
    address from [malloc], it returns its destination; the destination has
    the length and the bytes of the source, in a block of its own; the
    source and every other block are as before; and what is later written to
    the block of the copy does not reach the source.  The size argument
    plays no part. *)
Theorem bytebuffer_copy_is_deep
    (heap : Heap) (d s : ByteBuffer) (to : N) (n : size_t) :
  valid_bytebuffer heap s ->
  heap !! to = None ->
  exists r d',
    bytebuffer_copy (Some to) heap (Some d) (Some s) n = Some r
    /\ (forall n', bytebuffer_copy (Some to) heap (Some d) (Some s) n' = Some r)
    /\ hk_returned r = true
    /\ hk_struct r = Some d'
    /\ bb_length d' = bb_length s
    /\ bytes_of (hk_heap r) d' = bytes_of heap s
    /\ bytes_of (hk_heap r) s = bytes_of heap s
    /\ valid_bytebuffer (hk_heap r) d'
    /\ (bb_length s <> 0%N -> bb_data d' = Some to /\ bb_data s <> Some to)
    /\ (forall q, q <> to -> hk_heap r !! q = heap !! q)
    /\ (forall written,
          bytes_of (<[to := written]> (hk_heap r)) s = bytes_of heap s).
Proof.
  intros Hvalid Hfresh.
  destruct (bytebuffer_copy_valid heap d s to n Hvalid)
    as (r & Hr & Hret & Hstruct & Hheap).
  exists r, (mkByteBuffer (bb_length s)
               (if (0 <? bb_length s)%N then Some to else None)).
  split; [done|]. split; [intros n'; by rewrite <- Hr|].
  split; [done|]. split; [done|]. split; [done|].
  rewrite Hheap. clear Hr Hret Hstruct Hheap r.
  destruct (0 <? bb_length s)%N eqn:Hpos.
  - apply N.ltb_lt in Hpos.
    destruct Hvalid as [Hzero|(from & block & Hdata & Hblock & Hlen)]; [lia|].
    assert (from <> to) as Hne by congruence.
    assert (bytes_of heap s = take (N.to_nat (bb_length s)) block) as Hbytes
      by (unfold bytes_of; by rewrite Hdata, Hblock).
    split.
    { unfold bytes_of at 1. simpl. rewrite lookup_insert_eq, Hbytes.
      by rewrite take_take, Nat.min_id. }
    split.
    { unfold bytes_of at 1. rewrite Hdata, lookup_insert_ne, Hblock by done.
      done. }
    split.
    { right. exists to, (bytes_of heap s). simpl.
      rewrite lookup_insert_eq, Hbytes, length_take. repeat split. lia. }
    split; [intros _; split; [done | congruence]|].
    split; [intros q Hq; by rewrite lookup_insert_ne|].
    intros written. unfold bytes_of at 1.
    rewrite Hdata, !lookup_insert_ne, Hblock by done. done.
  - apply N.ltb_ge in Hpos. assert (bb_length s = 0%N) as Hzero by lia.
    rewrite (bytes_of_empty heap s Hzero).
    split; [done|]. split; [done|].
    split; [by left|]. split; [done|]. split; [done|].
    intros written. by apply bytes_of_empty.
Qed.

Lemma bytebuffer_copy_is_deep_witness :
  valid_bytebuffer one_block_heap four_bytes
  /\ one_block_heap !! 16%N = None
  /\ exists r d',
       bytebuffer_copy (Some 16%N) one_block_heap
         (Some (mkByteBuffer 0%N None)) (Some four_bytes) 16%N = Some r
       /\ hk_struct r = Some d'
       /\ bb_data d' = Some 16%N
       /\ bytes_of (hk_heap r) d' = int1234
       /\ bytes_of (<[16%N := zeroes]> (hk_heap r)) four_bytes = int1234.
Proof.
  assert (valid_bytebuffer one_block_heap four_bytes) as Hvalid.
  { right. exists 8%N, (int1234 ++ int42).
    split; [reflexivity|]. split; [reflexivity|]. simpl. lia. }
  assert (one_block_heap !! 16%N = None) as Hfresh by reflexivity.
  split; [exact Hvalid|]. split; [exact Hfresh|].
  destruct (bytebuffer_copy_is_deep one_block_heap (mkByteBuffer 0%N None)
              four_bytes 16%N 16%N Hvalid Hfresh)
    as (r & d' & Hr & _ & _ & Hstruct & _ & Hbytes & _ & _ & Hdata & _ & Hw).
  exists r, d'. split; [exact Hr|]. split; [exact Hstruct|].
  split; [apply Hdata; discriminate|].
  split; [exact Hbytes | exact (Hw zeroes)].
Defined.

(** X15.  [bytebuffer_dealloc] undoes [bytebuffer_copy]: after a copy of a
    valid source into a fresh block, the dealloc hook on the copy frees that
    block, so that the heap is again what it was before the copy, and leaves
    the copy with no data and length 0.  On a struct that it has already
    released, and on a null pointer, [bytebuffer_dealloc] frees nothing. *)
Theorem bytebuffer_dealloc_undoes_copy
    (heap : Heap) (d s : ByteBuffer) (to : N) (n : size_t) :
  valid_bytebuffer heap s ->
  heap !! to = None ->
  exists r,
    bytebuffer_copy (Some to) heap (Some d) (Some s) n = Some r
    /\ bytebuffer_dealloc (hk_heap r) (hk_struct r)
       = Some (Some (mkByteBuffer 0%N None), heap)
    /\ bytebuffer_dealloc heap (Some (mkByteBuffer 0%N None))
       = Some (Some (mkByteBuffer 0%N None), heap)
    /\ bytebuffer_dealloc heap None = Some (None, heap).
Proof.
  intros Hvalid Hfresh.
  destruct (bytebuffer_copy_valid heap d s to n Hvalid)
    as (r & Hr & Hret & Hstruct & Hheap).
  exists r. split; [done|]. split; [|done].
  rewrite Hstruct, Hheap. unfold bytebuffer_dealloc. simpl.
  destruct (0 <? bb_length s)%N; [|done].
  by rewrite lookup_insert_eq, delete_insert_id.
Qed.

Lemma bytebuffer_dealloc_undoes_copy_witness :
  valid_bytebuffer one_block_heap four_bytes
  /\ one_block_heap !! 16%N = None
  /\ exists r,
       bytebuffer_copy (Some 16%N) one_block_heap
         (Some (mkByteBuffer 0%N None)) (Some four_bytes) 16%N = Some r
       /\ bytebuffer_dealloc (hk_heap r) (hk_struct r)
          = Some (Some (mkByteBuffer 0%N None), one_block_heap).
Proof.
  assert (valid_bytebuffer one_block_heap four_bytes) as Hvalid.
  { right. exists 8%N, (int1234 ++ int42).
    split; [reflexivity|]. split; [reflexivity|]. simpl. lia. }
  assert (one_block_heap !! 16%N = None) as Hfresh by reflexivity.
  split; [exact Hvalid|]. split; [exact Hfresh|].
  destruct (bytebuffer_dealloc_undoes_copy one_block_heap
              (mkByteBuffer 0%N None) four_bytes 16%N 16%N Hvalid Hfresh)
    as (r & Hr & Hd & _).
  exists r. split; [exact Hr | exact Hd].
Defined.

(** X16.  When [bytebuffer_copy] fails.  It returns [NULL] exactly when its
    destination or its source is null, or the source has a length but no
    data, or [malloc] fails.  A copy that fails allocates nothing and leaves
    the heap as it was; it leaves the destination as it was too, except
    that a failed [malloc] has already been stored in its [data], which is
    then null while its [length] is still the old one. *)
Theorem bytebuffer_copy_failure
    (malloc_answer : option N) (heap : Heap) (dest src : option ByteBuffer)
    (n : size_t) (r : HookOutcome) :
  bytebuffer_copy malloc_answer heap dest src n = Some r ->
  (hk_returned r = false
   <-> dest = None \/ src = None
       \/ exists s, src = Some s /\ bb_length s <> 0%N
                    /\ (bb_data s = None \/ malloc_answer = None))
  /\ (hk_returned r = false ->
      hk_heap r = heap
      /\ (hk_struct r = dest
          \/ exists d s, dest = Some d /\ src = Some s
                         /\ bb_data s <> None /\ malloc_answer = None
                         /\ hk_struct r = Some (mkByteBuffer (bb_length d) None))).
Proof.
  unfold bytebuffer_copy.
  destruct dest as [d|]; [|intros [= <-]; simpl; split; [split|]; eauto].
  destruct src as [s|]; [|intros [= <-]; simpl; split; [split|]; eauto].
  destruct (0 <? bb_length s)%N eqn:Hpos.
  - apply N.ltb_lt in Hpos.
    destruct (bb_data s) as [from|] eqn:Hdata.
    2:{ intros [= <-]. simpl. split; [split|]; [|done|by eauto].
        intros _. right. right. exists s. repeat split; [lia | by left]. }
    destruct malloc_answer as [to|].
    + destruct (heap !! from) as [block|]; [|done].
      destruct (length block <? N.to_nat (bb_length s)); [done|].
      intros [= <-]. simpl. split; [split; [done|]|done].
      intros [|[|(s' & [= <-] & _ & [|])]]; congruence.
    + intros [= <-]. simpl. split; [split|].
      * intros _. right. right. exists s. repeat split; [lia | by right].
      * done.
      * intros _. split; [done|]. right. exists d, s.
        repeat split; congruence.
  - apply N.ltb_ge in Hpos. intros [= <-]. simpl.
    split; [split; [done|]|done].
    intros [|[|(s' & [= <-] & Hlen & _)]]; [done | done | lia].
Qed.

Lemma bytebuffer_copy_failure_witness :
  let r := mkHookOutcome false (Some (mkByteBuffer 7%N None)) one_block_heap in
  bytebuffer_copy None one_block_heap (Some (mkByteBuffer 7%N (Some 4%N)))
    (Some four_bytes) 16%N = Some r
  /\ hk_heap r = one_block_heap.
Proof.
  intros r.
  assert (bytebuffer_copy None one_block_heap
            (Some (mkByteBuffer 7%N (Some 4%N))) (Some four_bytes) 16%N = Some r)
    as Hr by reflexivity.
  split; [exact Hr|].
  destruct (bytebuffer_copy_failure _ _ _ _ _ _ Hr) as [_ Hfail].
  apply Hfail. reflexivity.
Defined.

(** * Printing a [ByteBuffer] *)

(** Storing right behind a prefix of the array. *)
Lemma store_chars_behind pre rest offset cs :
  N.to_nat offset = length pre ->
  length cs <= length rest ->
  store_chars (pre ++ rest) offset cs
  = Some (pre ++ cs ++ drop (length cs) rest).
Proof.
  intros Hoffset Hfits. unfold store_chars. rewrite Hoffset.
  rewrite length_app.
  destruct (Nat.leb_spec (length pre + length cs) (length pre + length rest));
    [|lia].
  by rewrite take_app_length, drop_app_add.
Qed.

Lemma hex_digit_not_null d : hex_digit d <> Ascii.zero.
Proof.
  unfold hex_digit. generalize (N.to_nat d). intros n.
  do 16 (destruct n as [|n]; [discriminate|]).
  destruct n; discriminate.
Qed.

Lemma hex_byte_not_null b :
  Forall (fun c => c <> Ascii.zero) (hex_byte b).
Proof.
  unfold hex_byte. repeat constructor; try discriminate;
    apply hex_digit_not_null.
Qed.

Lemma hex_list_not_null bytes :
  Forall (fun c => c <> Ascii.zero) (hex_list bytes).
Proof.
  induction bytes as [|b [|b' rest] IH].
  - constructor.
  - apply hex_byte_not_null.
  - change (hex_list (b :: b' :: rest))
      with (hex_byte b ++ ","%char :: hex_list (b' :: rest)).
    apply Forall_app. split; [apply hex_byte_not_null|].
    constructor; [discriminate | exact IH].
Qed.

Lemma concat_hex_byte_comma bytes :
  bytes <> [] ->
  concat (map hex_byte_comma bytes) = hex_list bytes ++ [","%char]
  /\ length (hex_list bytes) + 1 = 5 * length bytes.
Proof.
  induction bytes as [|b [|b' rest] IH]; [done | |]; intros _.
  - split; reflexivity.
  - destruct IH as [IH1 IH2]; [done|].
    change (concat (map hex_byte_comma (b :: b' :: rest)))
      with (hex_byte_comma b ++ concat (map hex_byte_comma (b' :: rest))).
    rewrite IH1.
    change (hex_list (b :: b' :: rest))
      with (hex_byte b ++ ","%char :: hex_list (b' :: rest)).
    split.
    + unfold hex_byte_comma. by rewrite <- !app_assoc.
    + rewrite length_app. simpl length in *. lia.
Qed.

Lemma c_string_prefix pre rest :
  Forall (fun c => c <> Ascii.zero) pre ->
  c_string (pre ++ Ascii.zero :: rest) = pre.
Proof.
  induction 1 as [|c pre Hc _ IH]; simpl; [done|].
  destruct (Ascii.eqb_spec c Ascii.zero); [done|]. by rewrite IH.
Qed.

(** The loop stores five characters per byte behind what is there, inside
    the array. *)
Lemma format_bytes_spec block count i pre rest :
  length pre = 1 + 5 * i ->
  i + count <= length block ->
  5 * count + 1 <= length rest ->
  exists rest',
    format_bytes block count (N.of_nat i) (pre ++ rest)
    = Some (pre ++ concat (map hex_byte_comma (take count (drop i block)))
            ++ rest')
    /\ length rest' + 5 * count = length rest.
Proof.
  revert i pre rest. induction count as [|count IH];
    intros i pre rest Hpre Hblock Hrest.
  - exists rest. simpl. split; [done | lia].
  - destruct (lookup_lt_is_Some_2 block i ltac:(lia)) as [b Hb].
    simpl. rewrite Nat2N.id, Hb.
    rewrite (store_chars_behind pre rest); [|lia | simpl; lia].
    change (sprintf_byte b) with (hex_byte_comma b ++ [Ascii.zero]).
    rewrite <- (app_assoc (hex_byte_comma b)), (app_assoc pre).
    replace (N.of_nat i + 1)%N with (N.of_nat (S i)) by lia.
    change (length (hex_byte_comma b ++ [Ascii.zero])) with 6.
    destruct (IH (S i) (pre ++ hex_byte_comma b)
                ([Ascii.zero] ++ drop 6 rest)) as (rest' & -> & Hlen).
    { rewrite length_app, Hpre. simpl. lia. }
    { lia. }
    { rewrite length_app, length_drop. simpl. lia. }
    exists rest'. split.
    + rewrite (drop_S block b i Hb). simpl. by rewrite <- !app_assoc.
    + rewrite length_app, length_drop in Hlen. simpl in Hlen. lia.
Qed.

(** A store leaves the array as long as it was. *)
Lemma store_chars_length buf offset cs buf' :
  store_chars buf offset cs = Some buf' -> length buf' = length buf.
Proof.
  unfold store_chars.
  destruct (Nat.leb_spec (N.to_nat offset + length cs) (length buf));
    [|done].
  intros [= <-]. rewrite !length_app, length_take, length_drop. lia.
Qed.

(** With 205 or more bytes to go through, the loop leaves the block of the
    data or the 1024 characters of the array: the store for the byte at
    index 204 would end at index 1026. *)
Lemma format_bytes_overrun block count i buf :
  length buf = 1024 ->
  205 <= N.to_nat i + count ->
  1 <= count ->
  format_bytes block count i buf = None.
Proof.
  revert i buf. induction count as [|count IH]; intros i buf Hbuf Hmany Hone;
    [lia|].
  simpl. destruct (block !! N.to_nat i) as [b|]; [|done].
  destruct (store_chars buf (1 + i * (4 + 1)) (sprintf_byte b)) as [buf'|]
    eqn:Hstore; [|done].
  pose proof (store_chars_length _ _ _ _ Hstore) as Hlen.
  unfold store_chars in Hstore.
  change (length (sprintf_byte b)) with 6 in Hstore.
  destruct (Nat.leb_spec (N.to_nat (1 + i * (4 + 1)) + 6) (length buf));
    [|done].
  apply IH; lia.
Qed.

(** X17.  [bytebuffer_to_string] of the example.  For a [ByteBuffer] of 1 to
    204 bytes it returns [FORMAT_BUFFER] holding ["["], the bytes as
    [0xNN] separated by commas, ["]"] and a null character, whatever the
    array held before, and every character it stores lies inside the 1024
    characters of the array.  An empty buffer gives the literal ["[]"]; a
    null pointer and a length without data fail an assertion before
    anything is stored.  A length of 205 or more fails the assertion on
    [string_length] exactly when [5 * length + 2], computed in [size_t],
    is more than 1024: so does every length from 205 to
    3689348814741910322, for which the sum does not wrap around.  For a
    longer buffer whose [string_length] wraps around to 1024 or less, the
    first of them 3689348814741910323 with a [string_length] of 1, the
    assertion holds and the loop reads outside the block of the data or
    stores outside the array. *)
Theorem bytebuffer_to_string_formats
    (heap : Heap) (FORMAT_BUFFER : list ascii) (b : ByteBuffer) :
  length FORMAT_BUFFER = N.to_nat FORMAT_BUFFER_SIZE ->
  (forall p block,
     bb_data b = Some p -> heap !! p = Some block ->
     N.to_nat (bb_length b) <= length block ->
     (0 < bb_length b <= 204)%N ->
     exists buf,
       bytebuffer_to_string heap FORMAT_BUFFER (Some b) = ts_buffer buf
       /\ length buf = N.to_nat FORMAT_BUFFER_SIZE
       /\ c_string buf
          = ["["%char] ++ hex_list (bytes_of heap b) ++ ["]"%char])
  /\ (bb_length b = 0%N ->
      bytebuffer_to_string heap FORMAT_BUFFER (Some b)
      = ts_literal ["["; "]"]%char)
  /\ (bb_length b <> 0%N /\ bb_data b = None ->
      bytebuffer_to_string heap FORMAT_BUFFER (Some b) = ts_assertion_failed)
  /\ ((204 < bb_length b <= 3689348814741910322)%N ->
      bytebuffer_to_string heap FORMAT_BUFFER (Some b) = ts_assertion_failed)
  /\ ((204 < bb_length b < 2 ^ SIZE_WIDTH)%N ->
      (FORMAT_BUFFER_SIZE < (5 * bb_length b + 2) mod 2 ^ SIZE_WIDTH)%N ->
      bytebuffer_to_string heap FORMAT_BUFFER (Some b) = ts_assertion_failed)
  /\ (forall p,
        bb_data b = Some p ->
        (204 < bb_length b < 2 ^ SIZE_WIDTH)%N ->
        ((5 * bb_length b + 2) mod 2 ^ SIZE_WIDTH <= FORMAT_BUFFER_SIZE)%N ->
        bytebuffer_to_string heap FORMAT_BUFFER (Some b) = ts_out_of_bounds)
  /\ bytebuffer_to_string heap FORMAT_BUFFER None = ts_assertion_failed.
Proof.
  intros Hsize. unfold FORMAT_BUFFER_SIZE in *.
  change (2 ^ SIZE_WIDTH)%N with 18446744073709551616%N in *.
  split; [|split; [|split; [|split; [|split; [|split]]]]].
  - intros p block Hdata Hblock Hlen [Hpos Hmax].
    unfold bytebuffer_to_string, bytes_of. rewrite Hdata, Hblock.
    change (2 ^ SIZE_WIDTH)%N with 18446744073709551616%N.
    destruct (N.eqb_spec (bb_length b) 0) as [|_]; [lia|].
    set (n := N.to_nat (bb_length b)) in *.
    assert (((1 + bb_length b * 4 + (bb_length b - 1) + 1 + 1)
             mod 18446744073709551616
             = 5 * bb_length b + 2)%N) as ->
      by (rewrite N.mod_small; lia).
    unfold FORMAT_BUFFER_SIZE.
    destruct (N.leb_spec (5 * bb_length b + 2) 1024) as [_|]; [|lia].
    simpl negb. cbv iota.
    destruct FORMAT_BUFFER as [|c0 rest0]; [simpl in Hsize; lia|].
    simpl in Hsize.
    change (store_chars (c0 :: rest0) 0 ["["%char])
      with (Some (["["%char] ++ rest0)).
    cbv iota.
    destruct (format_bytes_spec block n 0 ["["%char] rest0)
      as (rest1 & Hloop & Hrest1); [done | lia | lia |].
    change (N.of_nat 0) with 0%N in Hloop. rewrite Hloop. clear Hloop.
    rewrite drop_0.
    assert (take n block <> []) as Hne.
    { intros Hnil. apply (f_equal length) in Hnil.
      rewrite length_take in Hnil. simpl in Hnil. lia. }
    destruct (concat_hex_byte_comma (take n block) Hne) as [-> Hhex].
    rewrite length_take in Hhex.
    set (text := hex_list (take n block)) in *.
    replace (["["%char] ++ (text ++ [","%char]) ++ rest1)
      with ((["["%char] ++ text) ++ [","%char] ++ rest1)
      by by rewrite <- !app_assoc.
    rewrite (store_chars_behind (["["%char] ++ text));
      [|rewrite length_app; simpl; lia | simpl; lia].
    simpl drop. rewrite drop_0.
    assert (exists c1 rest2, rest1 = c1 :: rest2) as (c1 & rest2 & ->).
    { destruct rest1; [simpl in Hrest1; lia | by eauto]. }
    replace ((["["%char] ++ text) ++ ["]"%char] ++ c1 :: rest2)
      with ((["["%char] ++ text ++ ["]"%char]) ++ [c1] ++ rest2)
      by by rewrite <- !app_assoc.
    rewrite (store_chars_behind (["["%char] ++ text ++ ["]"%char]));
      [|rewrite !length_app; simpl; lia | simpl; lia].
    simpl drop. rewrite drop_0.
    eexists. split; [reflexivity|]. split.
    + rewrite !length_app. simpl in *. lia.
    + apply c_string_prefix. constructor; [discriminate|].
      apply Forall_app. split; [apply hex_list_not_null|].
      constructor; [discriminate | constructor].
  - intros Hzero. unfold bytebuffer_to_string. by rewrite Hzero.
  - intros [Hlen Hdata]. unfold bytebuffer_to_string.
    apply N.eqb_neq in Hlen. by rewrite Hlen, Hdata.
  - intros [Hmin Hmax]. unfold bytebuffer_to_string.
    destruct (N.eqb_spec (bb_length b) 0) as [|_]; [lia|].
    destruct (bb_data b); [|done].
    change (2 ^ SIZE_WIDTH)%N with 18446744073709551616%N.
    rewrite N.mod_small by lia.
    unfold FORMAT_BUFFER_SIZE.
    destruct (N.leb_spec (1 + bb_length b * 4 + (bb_length b - 1) + 1 + 1)
                1024); [lia | done].
  - intros [Hmin Hmax] Hlong. unfold bytebuffer_to_string.
    destruct (N.eqb_spec (bb_length b) 0) as [|_]; [lia|].
    destruct (bb_data b); [|done].
    change (2 ^ SIZE_WIDTH)%N with 18446744073709551616%N.
    replace (1 + bb_length b * 4 + (bb_length b - 1) + 1 + 1)%N
      with (5 * bb_length b + 2)%N by lia.
    unfold FORMAT_BUFFER_SIZE.
    destruct (N.leb_spec ((5 * bb_length b + 2) mod 18446744073709551616)
                1024); [lia | done].
  - intros p Hdata [Hmin Hmax] Hshort. unfold bytebuffer_to_string.
    destruct (N.eqb_spec (bb_length b) 0) as [|_]; [lia|].
    rewrite Hdata.
    change (2 ^ SIZE_WIDTH)%N with 18446744073709551616%N.
    replace (1 + bb_length b * 4 + (bb_length b - 1) + 1 + 1)%N
      with (5 * bb_length b + 2)%N by lia.
    unfold FORMAT_BUFFER_SIZE.
    destruct (N.leb_spec ((5 * bb_length b + 2) mod 18446744073709551616)
                1024); [|lia].
    simpl negb. cbv iota.
    destruct (heap !! p) as [block|]; [|done].
    destruct (store_chars FORMAT_BUFFER 0 ["["%char]) as [buf0|] eqn:Hstore;
      [|done].
    apply store_chars_length in Hstore.
    rewrite format_bytes_overrun; [done | lia | lia | lia].
  - done.
Qed.

Lemma bytebuffer_to_string_formats_witness :
  let FORMAT_BUFFER := repeat "z"%char 1024 in
  let too_long :=
    {| bb_length := 3689348814741910323%N; bb_data := Some 8%N |} in
  length FORMAT_BUFFER = N.to_nat FORMAT_BUFFER_SIZE
  /\ (exists buf,
        bytebuffer_to_string one_block_heap FORMAT_BUFFER (Some four_bytes)
        = ts_buffer buf
        /\ c_string buf
           = ["["; "0"; "x"; "D"; "2"; ","; "0"; "x"; "0"; "4"; ",";
              "0"; "x"; "0"; "0"; ","; "0"; "x"; "0"; "0"; "]"]%char)
  /\ ((5 * bb_length too_long + 2) mod 2 ^ SIZE_WIDTH = 1)%N
  /\ bytebuffer_to_string one_block_heap FORMAT_BUFFER (Some too_long)
     = ts_out_of_bounds.
Proof.
  intros FORMAT_BUFFER too_long.
  assert (length FORMAT_BUFFER = N.to_nat FORMAT_BUFFER_SIZE) as Hsize
    by reflexivity.
  split; [exact Hsize|].
  destruct (bytebuffer_to_string_formats one_block_heap FORMAT_BUFFER
              four_bytes Hsize) as [Hformat _].
  destruct (Hformat 8%N (int1234 ++ int42)) as (buf & Hbuf & _ & Hstring);
    [reflexivity | reflexivity | simpl; lia | simpl; lia |].
  split; [exists buf; split; [exact Hbuf | exact Hstring]|].
  split; [reflexivity|].
  destruct (bytebuffer_to_string_formats one_block_heap FORMAT_BUFFER
              too_long Hsize) as (_ & _ & _ & _ & _ & Hwrap & _).
  apply (Hwrap 8%N); [reflexivity | vm_compute; done | vm_compute; discriminate].
Defined.
